(** * Audio transcription page: request orchestration of [app/page.tsx]

    A shallow embedding of the client-side logic of the [Home] component:
    the file validator ([handleFileChange], [isAudioFormatSupported]), the
    encoder ([arrayBufferToBase64]), the rate limiter (the [requestCount]
    state with its deferred decrement) and the request orchestrator
    ([handleSubmit]).

    JavaScript numbers that the component manipulates are small integers
    (sizes, counters, milliseconds) and are modelled by [Z].  A JavaScript
    string used as a binary string is the list of its UTF-16 code units;
    user-facing messages are ordinary [string]s.

    The component is single-threaded: a handler runs without interruption
    up to its next [await], and the state updates it makes there take
    effect together.  An event handler reads the state of the latest
    render, which is the current state; the updater functions passed to
    [setRequestCount] read the current counter by construction.  The
    asynchronous part of [handleSubmit] is therefore a suspended call
    that the environment resumes, and the page is a transition system
    over the component state, the clock, the suspended calls, the
    registered timers and the log of external calls. *)

From Stdlib Require Import ZArith Lia Bool Ascii String DecimalString.
From stdpp Require Import base option list.

Local Open Scope Z_scope.

(** ** Platform functions used by the encoder *)

Module Base64.

(** The base64 alphabet of RFC 4648, section 4 (the one [window.btoa]
    uses). *)
Definition alphabet : string :=
  "ABCDEFGHIJKLMNOPQRSTUVWXYZabcdefghijklmnopqrstuvwxyz0123456789+/".

Definition pad : ascii := "="%char.

(** The character of a 6-bit group. *)
Definition enc6 (n : Z) : ascii :=
  match String.get (Z.to_nat n) alphabet with
  | Some c => c
  | None => pad
  end.

(** Position of a character in [s], counted from [i]. *)
Fixpoint index_from (i : Z) (c : ascii) (s : string) : option Z :=
  match s with
  | EmptyString => None
  | String d s' => if Ascii.eqb c d then Some i else index_from (i + 1) c s'
  end.

(** The 6-bit group of a character, [None] outside the alphabet. *)
Definition dec6 (c : ascii) : option Z := index_from 0 c alphabet.

(** Three octets make four characters; a tail of one or two octets is
    completed with zero bits and padded with [=]. *)
Fixpoint encode (bs : list Z) : list ascii :=
  match bs with
  | [] => []
  | [a] =>
      [ enc6 (Z.shiftr a 2); enc6 (Z.shiftl (Z.land a 3) 4); pad; pad ]
  | [a; b] =>
      [ enc6 (Z.shiftr a 2);
        enc6 (Z.lor (Z.shiftl (Z.land a 3) 4) (Z.shiftr b 4));
        enc6 (Z.shiftl (Z.land b 15) 2); pad ]
  | a :: b :: c :: rest =>
      enc6 (Z.shiftr a 2)
      :: enc6 (Z.lor (Z.shiftl (Z.land a 3) 4) (Z.shiftr b 4))
      :: enc6 (Z.lor (Z.shiftl (Z.land b 15) 2) (Z.shiftr c 6))
      :: enc6 (Z.land c 63)
      :: encode rest
  end.

(** First octet of a group, from its first two 6-bit groups. *)
Definition octet1 (s0 s1 : Z) : Z := Z.lor (Z.shiftl s0 2) (Z.shiftr s1 4).
Definition octet2 (s1 s2 : Z) : Z :=
  Z.lor (Z.shiftl (Z.land s1 15) 4) (Z.shiftr s2 2).
Definition octet3 (s2 s3 : Z) : Z := Z.lor (Z.shiftl (Z.land s2 3) 6) s3.

(** Standard (strict) decoding: the text is a sequence of groups of
    four characters, and only the last group may end in one or two
    padding characters.  Anything else is not base64. *)
Fixpoint decode (cs : list ascii) : option (list Z) :=
  match cs with
  | [] => Some []
  | c0 :: c1 :: c2 :: c3 :: rest =>
      s0 ← dec6 c0;
      s1 ← dec6 c1;
      match rest with
      | [] =>
          if Ascii.eqb c3 pad then
            if Ascii.eqb c2 pad then Some [octet1 s0 s1]
            else s2 ← dec6 c2; Some [octet1 s0 s1; octet2 s1 s2]
          else
            s2 ← dec6 c2;
            s3 ← dec6 c3;
            Some [octet1 s0 s1; octet2 s1 s2; octet3 s2 s3]
      | _ =>
          s2 ← dec6 c2;
          s3 ← dec6 c3;
          tl ← decode rest;
          Some (octet1 s0 s1 :: octet2 s1 s2 :: octet3 s2 s3 :: tl)
      end
  | _ => None
  end.

End Base64.

(** [String.fromCharCode(n)]: the code unit [n] modulo 2^16. *)
Definition fromCharCode (n : Z) : Z := n mod 65536.

(** [window.btoa(s)]: throws [InvalidCharacterError] (here [None]) when a
    code unit of [s] is above 255, otherwise the base64 text of the
    octets. *)
Definition btoa (binary : list Z) : option string :=
  if forallb (fun c => (0 <=? c) && (c <=? 255)) binary
  then Some (string_of_list_ascii (Base64.encode binary))
  else None.

(** Standard base64 decoding of a JavaScript string. *)
Definition base64_decode (s : string) : option (list Z) :=
  Base64.decode (list_ascii_of_string s).

(** ** Encoder *)

(** The loop of [arrayBufferToBase64]: one code unit is appended to
    [binary] per byte of the view, in index order. *)
Definition binary_of_bytes (bytes : list Z) : list Z :=
  fold_left (fun binary b => binary ++ [fromCharCode b]) bytes [].

(** [arrayBufferToBase64(buffer)], with [buffer] given by the octets that
    [new Uint8Array(buffer)] exposes. *)
Definition arrayBufferToBase64 (buffer : list Z) : option string :=
  btoa (binary_of_bytes buffer).

(** An [ArrayBuffer] holds octets. *)
Definition is_octets (buffer : list Z) : Prop :=
  Forall (fun b => 0 <= b < 256) buffer.

(** ** Configuration constants *)

Definition MAX_FILE_SIZE : Z := 10 * 1024 * 1024.
Definition MAX_REQUESTS_PER_MINUTE : Z := 10.
Definition REQUEST_INTERVAL : Z := 60 * 1000.
Definition SUPPORTED_FORMATS : list string :=
  [ "audio/mp3"; "audio/mpeg"; "audio/wav"; "audio/x-wav"; "audio/ogg" ]%string.

(** ** Data model *)

(** The attributes of a DOM [File] that the component reads.  Its content
    is only available through the asynchronous [arrayBuffer()] and is
    supplied by the environment when that promise settles. *)
Module File.
Record t := mk { name : string; type : string; size : Z }.
End File.

(** The six [useState] cells of [Home]. *)
Record State := mkState {
  file : option File.t;
  transcript : string;
  isLoading : bool;
  error : string;
  progress : Z;
  requestCount : Z
}.

Definition initialState : State :=
  {| file := None; transcript := ""; isLoading := false; error := "";
     progress := 0; requestCount := 0 |}.

(** State setters.  [setRequestCount] takes the updater function, as both
    of its call sites do. *)
Definition setFile (f : option File.t) (s : State) : State :=
  {| file := f; transcript := transcript s; isLoading := isLoading s;
     error := error s; progress := progress s; requestCount := requestCount s |}.
Definition setTranscript (t : string) (s : State) : State :=
  {| file := file s; transcript := t; isLoading := isLoading s;
     error := error s; progress := progress s; requestCount := requestCount s |}.
Definition setIsLoading (b : bool) (s : State) : State :=
  {| file := file s; transcript := transcript s; isLoading := b;
     error := error s; progress := progress s; requestCount := requestCount s |}.
Definition setError (e : string) (s : State) : State :=
  {| file := file s; transcript := transcript s; isLoading := isLoading s;
     error := e; progress := progress s; requestCount := requestCount s |}.
Definition setProgress (p : Z) (s : State) : State :=
  {| file := file s; transcript := transcript s; isLoading := isLoading s;
     error := error s; progress := p; requestCount := requestCount s |}.
Definition setRequestCount (upd : Z -> Z) (s : State) : State :=
  {| file := file s; transcript := transcript s; isLoading := isLoading s;
     error := error s; progress := progress s;
     requestCount := upd (requestCount s) |}.

(** ** Validator *)

Definition isAudioFormatSupported (f : File.t) : bool :=
  existsb (String.eqb (File.type f)) SUPPORTED_FORMATS.

(** Decimal rendering of an integer inside a template literal. *)
Definition show (n : Z) : string := NilZero.string_of_int (Z.to_int n).

Definition SIZE_LIMIT_ERROR : string :=
  "File size exceeds the maximum limit of "
  ++ show (MAX_FILE_SIZE / 1024 / 1024) ++ "MB.".
Definition FORMAT_ERROR : string :=
  "Unsupported audio format. Please upload an MP3, WAV, or OGG file.".
Definition RATE_LIMIT_ERROR : string :=
  "Rate limit exceeded. Please wait before making another request.".
Definition TRANSCRIPTION_ERROR : string :=
  "Error transcribing audio. Please try again.".

(** How a synchronous handler ends: it returns, having made its state
    updates, or an exception escapes it (and no update was made). *)
Inductive JsError := TypeError.
Inductive Completion :=
  | Normal (s : State)
  | Throw (e : JsError).

(** [handleFileChange(event)], where [files] is [event.target.files]: a
    [FileList], or [null].  [files[0]] of an empty list is [undefined],
    and reading [.size] of [undefined] throws a [TypeError]. *)
Definition handleFileChange (files : option (list File.t)) (s : State)
  : Completion :=
  match files with
  | Some fl =>
      match fl !! 0%nat with
      | None => Throw TypeError
      | Some selectedFile =>
          if File.size selectedFile >? MAX_FILE_SIZE then
            Normal (setError SIZE_LIMIT_ERROR s)
          else if negb (isAudioFormatSupported selectedFile) then
            Normal (setError FORMAT_ERROR s)
          else
            Normal (setError "" (setFile (Some selectedFile) s))
      end
  | None => Normal s
  end.

(** ** Request orchestrator *)

(** The three [await]s of [handleSubmit], in order. *)
Inductive Stage := AwaitArrayBuffer | AwaitGenerateContent | AwaitResponse.

(** A suspended call of [handleSubmit]: the [file] its closure captured
    and the [await] it is parked at. *)
Record Pending := mkPending { p_file : File.t; p_stage : Stage }.

(** The payload of one external transcription call ([inlineData]). *)
Record Request := mkRequest { mimeType : string; data : string }.

(** What an awaited value settles to: a rejection, the bytes of the file,
    the result object of [generateContent], or the response, whose
    [text()] returns the transcript or throws ([None]). *)
Inductive Settled :=
  | Rejected
  | Buffer (bytes : list Z)
  | Result
  | Response (text : option string).

(** The synchronous prefix of [handleSubmit], up to its first [await]. *)
Inductive Started :=
  | Returned (s : State)
  | Suspended (s : State) (p : Pending).

Definition handleSubmit (s : State) : Started :=
  match file s with
  | None => Returned s
  | Some f =>
      if requestCount s >=? MAX_REQUESTS_PER_MINUTE then
        Returned (setError RATE_LIMIT_ERROR s)
      else
        Suspended (setProgress 0 (setError "" (setIsLoading true s)))
                  {| p_file := f; p_stage := AwaitArrayBuffer |}
  end.

(** How a suspended call continues when the value it awaits settles: it
    parks at the next [await] (after issuing the external call, when it
    has just encoded the audio), or it leaves the [try] block normally
    with the transcript, or through [catch]. *)
Inductive Resumed :=
  | Awaiting (p : Pending) (call : option Request)
  | Succeeded (text : string)
  | Failed.

Definition resume (p : Pending) (v : Settled) : option Resumed :=
  match p_stage p, v with
  | _, Rejected => Some Failed
  | AwaitArrayBuffer, Buffer arrayBuffer =>
      match arrayBufferToBase64 arrayBuffer with
      | Some base64Audio =>
          Some (Awaiting {| p_file := p_file p; p_stage := AwaitGenerateContent |}
                         (Some {| mimeType := File.type (p_file p);
                                  data := base64Audio |}))
      | None => Some Failed
      end
  | AwaitGenerateContent, Result =>
      Some (Awaiting {| p_file := p_file p; p_stage := AwaitResponse |} None)
  | AwaitResponse, Response (Some text) => Some (Succeeded text)
  | AwaitResponse, Response None => Some Failed
  | _, _ => None
  end.

(** The [finally] block. *)
Definition finally (s : State) : State := setProgress 100 (setIsLoading false s).

(** State updates of the tail of the [try] block, then [finally]. *)
Definition on_success (text : string) (s : State) : State :=
  finally (setRequestCount (fun prevCount => prevCount + 1) (setTranscript text s)).

(** State updates of the [catch] block, then [finally]. *)
Definition on_failure (s : State) : State :=
  finally (setError TRANSCRIPTION_ERROR s).

(** The callback handed to [setTimeout]. *)
Definition decrement (s : State) : State :=
  setRequestCount (fun prevCount => Z.max (prevCount - 1) 0) s.

(** ** The page in its environment *)

(** A callback registered with [setTimeout(cb, delay)] at time
    [scheduledAt] (milliseconds).  The only callback the component ever
    registers is [decrement]. *)
Record Timer := mkTimer { scheduledAt : Z; delay : Z }.

(** The component state together with what the browser holds for it: the
    clock, the suspended calls of [handleSubmit], the registered timers,
    and the log of external transcription calls issued so far. *)
Record World := mkWorld {
  ui : State;
  clock : Z;
  inflight : list Pending;
  timers : list Timer;
  requests : list Request
}.

Definition initialWorld : World :=
  {| ui := initialState; clock := 0; inflight := []; timers := [];
     requests := [] |}.

(** What can happen to the page. *)
Inductive Event :=
  | Change (files : option (list File.t))  (* the file input changes *)
  | Submit                                 (* the form is submitted *)
  | Settle (i : nat) (v : Settled)         (* the value awaited by call [i] settles *)
  | Fire (i : nat)                         (* the browser runs timer [i] *)
  | Tick (dt : Z).                         (* [dt] milliseconds pass *)

Definition withUi (s : State) (w : World) : World :=
  {| ui := s; clock := clock w; inflight := inflight w; timers := timers w;
     requests := requests w |}.

(** A timer may run once its delay has elapsed, never before. *)
Definition due (tm : Timer) (now : Z) : bool := scheduledAt tm + delay tm <=? now.

(** One event, run to its next suspension point.  [None]: the event
    cannot happen in [w] (no such suspended call or timer, a value of the
    wrong kind for the [await], a timer that is not due, time running
    backwards).  An exception escaping an event handler leaves the state
    as it was. *)
Definition step (w : World) (e : Event) : option World :=
  match e with
  | Change files =>
      match handleFileChange files (ui w) with
      | Normal s => Some (withUi s w)
      | Throw _ => Some w
      end
  | Submit =>
      match handleSubmit (ui w) with
      | Returned s => Some (withUi s w)
      | Suspended s p =>
          Some {| ui := s; clock := clock w; inflight := inflight w ++ [p];
                  timers := timers w; requests := requests w |}
      end
  | Settle i v =>
      p ← inflight w !! i;
      r ← resume p v;
      match r with
      | Awaiting p' call =>
          Some {| ui := ui w; clock := clock w;
                  inflight := <[i := p']> (inflight w);
                  timers := timers w;
                  requests := requests w ++ option_list call |}
      | Succeeded text =>
          Some {| ui := on_success text (ui w); clock := clock w;
                  inflight := delete i (inflight w);
                  timers := timers w ++ [ {| scheduledAt := clock w;
                                             delay := REQUEST_INTERVAL |} ];
                  requests := requests w |}
      | Failed =>
          Some {| ui := on_failure (ui w); clock := clock w;
                  inflight := delete i (inflight w);
                  timers := timers w; requests := requests w |}
      end
  | Fire i =>
      tm ← timers w !! i;
      if due tm (clock w) then
        Some {| ui := decrement (ui w); clock := clock w;
                inflight := inflight w; timers := delete i (timers w);
                requests := requests w |}
      else None
  | Tick dt =>
      if 0 <=? dt then
        Some {| ui := ui w; clock := clock w + dt; inflight := inflight w;
                timers := timers w; requests := requests w |}
      else None
  end.

(** The submit button carries [disabled={!file || isLoading}]. *)
Definition submitDisabled (s : State) : bool :=
  match file s with
  | None => true
  | Some _ => isLoading s
  end.

(** Events as the rendered page receives them: activating a disabled
    submit button does not submit the form, so [handleSubmit] is not
    called and nothing changes. *)
Definition ui_step (w : World) (e : Event) : option World :=
  match e with
  | Submit => if submitDisabled (ui w) then Some w else step w Submit
  | _ => step w e
  end.

(** Events when submissions follow one another: [handleSubmit] is only
    called once the previous call has completed. *)
Definition seq_step (w : World) (e : Event) : option World :=
  match e with
  | Submit =>
      match inflight w with
      | [] => step w Submit
      | _ :: _ => None
      end
  | _ => step w e
  end.

(** Running a sequence of events from [w]. *)
Fixpoint run (stp : World -> Event -> option World) (evs : list Event)
    (w : World) : option World :=
  match evs with
  | [] => Some w
  | e :: evs' => w' ← stp w e; run stp evs' w'
  end.

(** States the handlers can produce when they may be called at any time. *)
Definition reachable (w : World) : Prop :=
  exists evs, run step evs initialWorld = Some w.

(** States the page can be brought to through its user interface. *)
Definition ui_reachable (w : World) : Prop :=
  exists evs, run ui_step evs initialWorld = Some w.

(** States produced by submissions that do not overlap. *)
Definition seq_reachable (w : World) : Prop :=
  exists evs, run seq_step evs initialWorld = Some w.

(** The octets 0, 1, ..., 255. *)
Definition all_octets : list Z := map Z.of_nat (seq 0 256).

(** A file accepted by the validator, and a session that transcribes it. *)
Definition sample : File.t :=
  {| File.name := "memo.ogg"; File.type := "audio/ogg"; File.size := 3 |}.

Definition transcribe (bytes : list Z) (text : string) : list Event :=
  [ Submit; Settle 0 (Buffer bytes); Settle 0 Result;
    Settle 0 (Response (Some text)) ].

Definition world_after (evs : list Event) : World :=
  match run step evs initialWorld with
  | Some w => w
  | None => initialWorld
  end.

(** [n] transcriptions of [sample], one after the other. *)
Definition session (n : nat) : list Event :=
  Change (Some [sample]) :: concat (replicate n (transcribe [1; 2; 3] "hello")).

(** The same [n] transcriptions started together and completed afterwards,
    as direct calls of [handleSubmit] allow. *)
Definition overlapped (n : nat) : list Event :=
  Change (Some [sample]) :: replicate n Submit
  ++ concat (replicate n (tail (transcribe [1; 2; 3] "hello"))).

(** A submission of [sample] parked at its last [await]. *)
Definition awaiting_response : list Event :=
  [ Change (Some [sample]); Submit; Settle 0 (Buffer [1; 2; 3]); Settle 0 Result ].

(** Files the validator rejects. *)
Definition oversized : File.t :=
  {| File.name := "concert.wav"; File.type := "audio/wav";
     File.size := MAX_FILE_SIZE + 1 |}.
Definition video : File.t :=
  {| File.name := "clip.mp4"; File.type := "video/mp4"; File.size := 2048 |}.

(** ** Invariants of the rate limiter *)

(** Every registered timer is a decrement registered by a success with
    delay [REQUEST_INTERVAL], in the past. *)
Definition timer_ok (now : Z) (tm : Timer) : Prop :=
  delay tm = REQUEST_INTERVAL /\ scheduledAt tm <= now.

(** The counter is the number of decrements still to come, and nothing
    is suspended or scheduled before a file was selected. *)
Record Inv (w : World) : Prop := mkInv {
  inv_count : requestCount (ui w) = Z.of_nat (length (timers w));
  inv_timers : Forall (timer_ok (clock w)) (timers w);
  inv_file : file (ui w) = None -> inflight w = [] /\ timers w = []
}.

(** When submissions do not overlap, at most one call of [handleSubmit]
    is suspended at a time, and it was admitted below the limit. *)
Definition SeqInv (w : World) : Prop :=
  0 <= requestCount (ui w)
  /\ ((inflight w = [] /\ requestCount (ui w) <= MAX_REQUESTS_PER_MINUTE)
      \/ (exists p, inflight w = [p]
                    /\ requestCount (ui w) < MAX_REQUESTS_PER_MINUTE)).

(** A suspended call holds the loading flag. *)
Definition Loading (w : World) : Prop :=
  inflight w <> [] -> isLoading (ui w) = true.

Definition UiInv (w : World) : Prop := SeqInv w /\ Loading w.

(** ** What the page shows *)

(** The parts of the markup returned by [Home] that depend on the state:
    the line naming the selected file, the submit button, the error
    line, the progress line and the transcript panel.  A JSX guard
    [x && ...] renders nothing when [x] is [null], [false] or the empty
    string. *)
Record View := mkView {
  selectedFileLine : option string;
  buttonDisabled : bool;
  buttonLabel : string;
  errorLine : option string;
  progressLine : option string;
  transcriptPanel : option string
}.

Definition render (s : State) : View :=
  {| selectedFileLine :=
       match file s with
       | Some f => Some ("Selected file: " ++ File.name f)%string
       | None => None
       end;
     buttonDisabled := submitDisabled s;
     buttonLabel :=
       if isLoading s then "Transcribing..."%string else "Transcribe Audio"%string;
     errorLine := if String.eqb (error s) "" then None else Some (error s);
     progressLine :=
       if isLoading s then Some (show (progress s) ++ "% Complete")%string
       else None;
     transcriptPanel :=
       if String.eqb (transcript s) "" then None else Some (transcript s) |}.

(** ** Further notions used by the properties *)

(** What the validator lets through. *)
Definition acceptable (f : File.t) : Prop :=
  File.size f <= MAX_FILE_SIZE /\ File.type f ∈ SUPPORTED_FORMATS.

(** A suspended call that has already issued its external call. *)
Definition issued (p : Pending) : nat :=
  match p_stage p with
  | AwaitArrayBuffer => 0
  | AwaitGenerateContent | AwaitResponse => 1
  end.

(** Whether event [e] completes a submission successfully in [w]. *)
Definition succeeds (w : World) (e : Event) : bool :=
  match e with
  | Settle i v =>
      match inflight w !! i ≫= (fun p => resume p v) with
      | Some (Succeeded _) => true
      | _ => false
      end
  | _ => false
  end.

(** The times at which submissions completed successfully along a run. *)
Fixpoint successes (stp : World -> Event -> option World) (evs : list Event)
    (w : World) : list Z :=
  match evs with
  | [] => []
  | e :: evs' =>
      match stp w e with
      | Some w' =>
          (if succeeds w e then [clock w] else []) ++ successes stp evs' w'
      | None => []
      end
  end.

(** A time [t] lies in the last [REQUEST_INTERVAL] milliseconds. *)
Definition recent (now t : Z) : Prop := now < t + REQUEST_INTERVAL.

#[global] Instance recent_dec (now t : Z) : Decision (recent now t) :=
  Z.lt_dec now (t + REQUEST_INTERVAL).

(** Only validated files are selected, captured or sent. *)
Record Validated (w : World) : Prop := mkValidated {
  val_file : forall f, file (ui w) = Some f -> acceptable f;
  val_inflight : Forall (fun p => acceptable (p_file p)) (inflight w);
  val_requests : Forall (fun r => mimeType r ∈ SUPPORTED_FORMATS) (requests w)
}.

(** Until a file is selected only the error message and the clock move. *)
Definition Pristine (w : World) : Prop :=
  file (ui w) = None ->
  transcript (ui w) = ""%string /\ isLoading (ui w) = false
  /\ progress (ui w) = 0 /\ requestCount (ui w) = 0
  /\ inflight w = [] /\ timers w = [] /\ requests w = [].

(** The loading flag and the progress value are set together. *)
Definition Coupled (s : State) : Prop :=
  (isLoading s = false /\ progress s = 0)
  \/ (isLoading s = true /\ progress s = 0)
  \/ (isLoading s = false /\ progress s = 100).

(** Shifts and masks by constants, as divisions and remainders. *)
Ltac to_arith :=
  change 3 with (Z.ones 2); change 15 with (Z.ones 4);
  change 63 with (Z.ones 6);
  rewrite ?Z.land_ones by lia;
  rewrite ?Z.shiftr_div_pow2 by lia.

(** * Properties *)

(** ** Bit-level facts behind the encoder *)

Lemma land_shiftl_low x y k :
  0 <= k -> 0 <= y < 2 ^ k -> Z.land (Z.shiftl x k) y = 0.
Proof.
  intros Hk Hy. apply Z.bits_inj'. intros n Hn.
  rewrite Z.land_spec, Z.bits_0.
  destruct (Z.lt_ge_cases n k) as [Hlt | Hge].
  - rewrite Z.shiftl_spec_low by lia. reflexivity.
  - rewrite <- (Z.mod_small y (2 ^ k)) by lia.
    rewrite Z.mod_pow2_bits_high by lia. apply andb_false_r.
Qed.

Lemma lor_shiftl_low x y k :
  0 <= k -> 0 <= y < 2 ^ k -> Z.lor (Z.shiftl x k) y = x * 2 ^ k + y.
Proof.
  intros Hk Hy.
  pose proof (Z.add_lor_land (Z.shiftl x k) y) as H.
  rewrite land_shiftl_low in H by assumption.
  rewrite <- (Z.shiftl_mul_pow2 x k) by assumption. lia.
Qed.

Lemma sextets_in_range a b c :
  0 <= a < 256 -> 0 <= b < 256 -> 0 <= c < 256 ->
  0 <= Z.shiftr a 2 < 64
  /\ 0 <= Z.lor (Z.shiftl (Z.land a 3) 4) (Z.shiftr b 4) < 64
  /\ 0 <= Z.lor (Z.shiftl (Z.land b 15) 2) (Z.shiftr c 6) < 64
  /\ 0 <= Z.land c 63 < 64.
Proof.
  intros Ha Hb Hc. to_arith.
  rewrite !lor_shiftl_low.
  all: change (2 ^ 2) with 4; change (2 ^ 4) with 16; change (2 ^ 6) with 64.
  all: try (Z.div_mod_to_equations; lia).
Qed.

Lemma octets_of_sextets a b c :
  0 <= a < 256 -> 0 <= b < 256 -> 0 <= c < 256 ->
  let s0 := Z.shiftr a 2 in
  let s1 := Z.lor (Z.shiftl (Z.land a 3) 4) (Z.shiftr b 4) in
  let s2 := Z.lor (Z.shiftl (Z.land b 15) 2) (Z.shiftr c 6) in
  let s3 := Z.land c 63 in
  Base64.octet1 s0 s1 = a /\ Base64.octet2 s1 s2 = b /\ Base64.octet3 s2 s3 = c.
Proof.
  intros Ha Hb Hc. cbv zeta. unfold Base64.octet1, Base64.octet2, Base64.octet3.
  to_arith.
  rewrite !(lor_shiftl_low (a mod 2 ^ 2)), !(lor_shiftl_low (b mod 2 ^ 4)).
  all: change (2 ^ 2) with 4; change (2 ^ 4) with 16; change (2 ^ 6) with 64.
  all: try (Z.div_mod_to_equations; lia).
  rewrite !lor_shiftl_low.
  all: change (2 ^ 2) with 4; change (2 ^ 4) with 16; change (2 ^ 6) with 64.
  all: try (Z.div_mod_to_equations; lia).
Qed.

(** ** The alphabet is injective on 6-bit groups *)

Lemma below_64 (P : Z -> Prop) :
  Forall P (map Z.of_nat (seq 0 64)) -> forall n, 0 <= n < 64 -> P n.
Proof.
  intros H n Hn. rewrite List.Forall_forall in H. apply H.
  rewrite <- (Z2Nat.id n) by lia. apply List.in_map, List.in_seq. lia.
Qed.

Lemma dec6_enc6 n : 0 <= n < 64 -> Base64.dec6 (Base64.enc6 n) = Some n.
Proof. revert n. apply below_64. repeat constructor. Qed.

Lemma enc6_not_pad n :
  0 <= n < 64 -> Ascii.eqb (Base64.enc6 n) Base64.pad = false.
Proof. revert n. apply below_64. repeat constructor. Qed.

(** ** Decoding undoes encoding *)

Lemma list_ind3 {A} (P : list A -> Prop) :
  P [] -> (forall a, P [a]) -> (forall a b, P [a; b]) ->
  (forall a b c l, P l -> P (a :: b :: c :: l)) ->
  forall l, P l.
Proof.
  intros H0 H1 H2 H3 l.
  cut (P l /\ (forall a, P (a :: l)) /\ (forall a b, P (a :: b :: l))).
  { tauto. }
  induction l as [| x l (IH0 & IH1 & IH2)]; auto.
Qed.

Lemma encode_nil_inv bs : Base64.encode bs = [] -> bs = [].
Proof. destruct bs as [| a [| b [| c rest]]]; simpl; congruence. Qed.

Lemma decode_encode bs :
  is_octets bs -> Base64.decode (Base64.encode bs) = Some bs.
Proof.
  induction bs as [| a | a b | a b c rest IH] using list_ind3; intros Hbs.
  - reflexivity.
  - apply Forall_cons_1 in Hbs as [Ha _].
    destruct (sextets_in_range a 0 0) as (R0 & R1 & _); [lia .. |].
    destruct (octets_of_sextets a 0 0) as (E1 & _); [lia .. |].
    change (Z.shiftr 0 4) with 0 in *. rewrite Z.lor_0_r in *.
    cbn [Base64.encode Base64.decode].
    rewrite !dec6_enc6 by assumption. cbn [mbind option_bind].
    change (Ascii.eqb Base64.pad Base64.pad) with true. cbv iota.
    now rewrite E1.
  - apply Forall_cons_1 in Hbs as [Ha Hbs]. apply Forall_cons_1 in Hbs as [Hb _].
    destruct (sextets_in_range a b 0) as (R0 & R1 & R2 & _); [lia .. |].
    destruct (octets_of_sextets a b 0) as (E1 & E2 & _); [lia .. |].
    change (Z.shiftr 0 6) with 0 in *. rewrite Z.lor_0_r in *.
    cbn [Base64.encode Base64.decode].
    rewrite !dec6_enc6 by assumption. cbn [mbind option_bind].
    change (Ascii.eqb Base64.pad Base64.pad) with true. cbv iota.
    rewrite enc6_not_pad by assumption. cbn [mbind option_bind].
    now rewrite E1, E2.
  - apply Forall_cons_1 in Hbs as [Ha Hbs]. apply Forall_cons_1 in Hbs as [Hb Hbs].
    apply Forall_cons_1 in Hbs as [Hc Hbs].
    destruct (sextets_in_range a b c) as (R0 & R1 & R2 & R3); [lia .. |].
    destruct (octets_of_sextets a b c) as (E1 & E2 & E3); [lia .. |].
    specialize (IH Hbs).
    cbn [Base64.encode Base64.decode].
    rewrite !dec6_enc6 by assumption. cbn [mbind option_bind].
    destruct (Base64.encode rest) as [| c' cs'] eqn:Henc.
    + apply encode_nil_inv in Henc. subst rest.
      rewrite enc6_not_pad by assumption. cbn [mbind option_bind].
      now rewrite E1, E2, E3.
    + rewrite IH. cbn [mbind option_bind].
      now rewrite E1, E2, E3.
Qed.

(** ** The encoder's loop *)

Lemma binary_loop acc bytes :
  fold_left (fun binary b => binary ++ [fromCharCode b]) bytes acc
  = acc ++ map fromCharCode bytes.
Proof.
  revert acc. induction bytes as [| b bytes IH]; intros acc; simpl.
  - now rewrite app_nil_r.
  - rewrite IH, <- app_assoc. reflexivity.
Qed.

Lemma binary_of_bytes_map bytes : binary_of_bytes bytes = map fromCharCode bytes.
Proof. apply binary_loop. Qed.

Lemma binary_of_octets bytes : is_octets bytes -> binary_of_bytes bytes = bytes.
Proof.
  intros H. rewrite binary_of_bytes_map.
  induction H as [| b bytes Hb _ IH]; simpl; [reflexivity |].
  unfold fromCharCode at 1. rewrite Z.mod_small by lia. now rewrite IH.
Qed.

Lemma octets_pass_btoa bytes :
  is_octets bytes -> forallb (fun c => (0 <=? c) && (c <=? 255)) bytes = true.
Proof.
  intros H. induction H as [| b bytes Hb _ IH]; simpl; [reflexivity |].
  rewrite IH. replace (0 <=? b) with true by lia. replace (b <=? 255) with true by lia.
  reflexivity.
Qed.

(** ** Validator *)

Lemma SIZE_LIMIT_ERROR_text :
  SIZE_LIMIT_ERROR = "File size exceeds the maximum limit of 10MB."%string.
Proof. reflexivity. Qed.

Lemma isAudioFormatSupported_spec f :
  isAudioFormatSupported f = true <-> File.type f ∈ SUPPORTED_FORMATS.
Proof.
  unfold isAudioFormatSupported. rewrite existsb_exists. split.
  - intros (x & Hin & Heq). apply String.eqb_eq in Heq. subst x.
    now apply list_elem_of_In.
  - intros Hin. exists (File.type f). split.
    + now apply list_elem_of_In.
    + apply String.eqb_refl.
Qed.

Lemma isAudioFormatSupported_false f :
  isAudioFormatSupported f = false <-> File.type f ∉ SUPPORTED_FORMATS.
Proof.
  rewrite <- isAudioFormatSupported_spec.
  destruct (isAudioFormatSupported f); split; congruence.
Qed.

(** What [handleFileChange] never touches. *)
Lemma handleFileChange_frame files s s' :
  handleFileChange files s = Normal s' ->
  transcript s' = transcript s /\ isLoading s' = isLoading s
  /\ progress s' = progress s /\ requestCount s' = requestCount s
  /\ (file s' = file s \/ is_Some (file s')).
Proof.
  unfold handleFileChange. intros H.
  destruct files as [fl |]; [| injection H as <-; tauto].
  destruct (fl !! 0%nat) as [f |]; [| discriminate].
  destruct (File.size f >? MAX_FILE_SIZE); [injection H as <-; simpl; tauto |].
  destruct (negb (isAudioFormatSupported f)); injection H as <-; simpl; eauto 10.
Qed.

(** ** Runs *)

Section Runs.

Variable stp : World -> Event -> option World.

Lemma run_snoc evs e w :
  run stp (evs ++ [e]) w = w' ← run stp evs w; stp w' e.
Proof.
  revert w. induction evs as [| e0 evs IH]; intros w; simpl.
  - destruct (stp w e); reflexivity.
  - destruct (stp w e0); simpl; auto.
Qed.

(** Induction over the states a run goes through. *)
Lemma run_ind (P : World -> Prop) :
  P initialWorld ->
  (forall w e w', P w -> stp w e = Some w' -> P w') ->
  forall evs w, run stp evs initialWorld = Some w -> P w.
Proof.
  intros Hinit Hstep evs.
  induction evs as [| e evs IH] using rev_ind; intros w Hrun.
  - injection Hrun as <-. exact Hinit.
  - rewrite run_snoc in Hrun.
    destruct (run stp evs initialWorld) as [w0 |]; [| discriminate].
    simpl in Hrun. eauto.
Qed.

End Runs.

Lemma run_step_snoc stp evs e w w' :
  run stp evs initialWorld = Some w -> stp w e = Some w' ->
  run stp (evs ++ [e]) initialWorld = Some w'.
Proof. intros Hrun Hstep. rewrite run_snoc, Hrun. exact Hstep. Qed.

Lemma seq_step_step w e w' : seq_step w e = Some w' -> step w e = Some w'.
Proof.
  destruct e; simpl; auto. destruct (inflight w); [auto | discriminate].
Qed.

(** ** The invariants hold *)

Lemma Inv_init : Inv initialWorld.
Proof. split; simpl; auto. Qed.

Lemma Inv_step w e w' : Inv w -> step w e = Some w' -> Inv w'.
Proof.
  intros [Hc Ht Hf] Hstep. destruct e as [files | | i v | i | dt]; simpl in Hstep.
  - (* Change *)
    destruct (handleFileChange files (ui w)) as [s |] eqn:E;
      injection Hstep as <-; [| split; auto].
    apply handleFileChange_frame in E as (_ & _ & _ & Ec & Ef).
    split; simpl; [congruence | assumption |].
    intros Hnone. destruct Ef as [Ef | [f Ef]]; [| congruence].
    apply Hf. congruence.
  - (* Submit *)
    unfold handleSubmit in Hstep. destruct (file (ui w)) as [f |] eqn:Efile.
    + destruct (requestCount (ui w) >=? MAX_REQUESTS_PER_MINUTE);
        injection Hstep as <-; split; simpl; auto; rewrite Efile; discriminate.
    + injection Hstep as <-. split; simpl; auto.
  - (* Settle *)
    destruct (inflight w !! i) as [p |] eqn:Ep; [| discriminate].
    assert (Hsome : file (ui w) <> None).
    { intros Hnone. destruct (Hf Hnone) as [Hin _]. now rewrite Hin in Ep. }
    simpl in Hstep. destruct (resume p v) as [[p' call | text |] |];
      [| | | discriminate]; injection Hstep as <-.
    + split; simpl; [assumption .. | contradiction].
    + split; simpl; [| | contradiction].
      * rewrite Hc, length_app. simpl. lia.
      * apply Forall_app_2; [assumption |]. repeat constructor; simpl. lia.
    + split; simpl; [assumption .. | contradiction].
  - (* Fire *)
    destruct (timers w !! i) as [tm |] eqn:Etm; [| discriminate].
    simpl in Hstep. destruct (due tm (clock w)); [| discriminate].
    injection Hstep as <-.
    pose proof (lookup_lt_Some _ _ _ Etm) as Hlt.
    split; simpl.
    + rewrite length_delete by eauto. rewrite Hc. lia.
    + now apply Forall_delete.
    + intros Hnone. destruct (Hf Hnone) as [_ Hnil]. now rewrite Hnil in Etm.
  - (* Tick *)
    destruct (0 <=? dt) eqn:Edt; [| discriminate]. injection Hstep as <-.
    split; simpl; auto.
    eapply Forall_impl; [exact Ht |]. intros tm [Hd Hs]. split; [assumption | lia].
Qed.

Lemma reachable_Inv w : reachable w -> Inv w.
Proof.
  intros [evs Hrun]. revert evs w Hrun.
  apply run_ind; [exact Inv_init | exact Inv_step].
Qed.

Lemma SeqInv_init : SeqInv initialWorld.
Proof.
  split; simpl; [lia | left]. split; [reflexivity |].
  unfold MAX_REQUESTS_PER_MINUTE. lia.
Qed.

Lemma SeqInv_step w e w' : SeqInv w -> seq_step w e = Some w' -> SeqInv w'.
Proof.
  intros [H0 Hcase] Hstep. destruct e as [files | | i v | i | dt]; simpl in Hstep.
  - (* Change *)
    destruct (handleFileChange files (ui w)) as [s |] eqn:E;
      injection Hstep as <-; [| split; auto].
    apply handleFileChange_frame in E as (_ & _ & _ & Ec & _).
    unfold SeqInv; simpl. rewrite Ec. auto.
  - (* Submit: no call is pending *)
    destruct (inflight w) eqn:Hnil; [| discriminate].
    destruct Hcase as [[_ Hle] | (p & Hp & _)]; [| discriminate].
    unfold handleSubmit in Hstep. destruct (file (ui w)) as [f |].
    + destruct (requestCount (ui w) >=? MAX_REQUESTS_PER_MINUTE) eqn:Eg;
        injection Hstep as <-; unfold SeqInv; simpl; rewrite ?Hnil.
      * split; [assumption | left; auto].
      * split; [assumption | right]. eexists; split; [reflexivity | lia].
    + injection Hstep as <-. unfold SeqInv; simpl. rewrite ?Hnil.
      split; [assumption | left; auto].
  - (* Settle *)
    destruct (inflight w !! i) as [p |] eqn:Ep; [| discriminate].
    destruct Hcase as [[Hnil _] | (q & Hq & Hlt)]; [now rewrite Hnil in Ep |].
    rewrite Hq in Ep. destruct i as [| i]; [| discriminate].
    simpl in Hstep. destruct (resume p v) as [[p' call | text |] |];
      [| | | discriminate]; injection Hstep as <-; unfold SeqInv; simpl;
      rewrite Hq; simpl.
    + split; [assumption | right; eauto].
    + split; [lia | left; split; [reflexivity | lia]].
    + split; [assumption | left; split; [reflexivity | lia]].
  - (* Fire *)
    destruct (timers w !! i) as [tm |]; [| discriminate].
    simpl in Hstep. destruct (due tm (clock w)); [| discriminate].
    injection Hstep as <-. unfold SeqInv; simpl. split; [lia |].
    destruct Hcase as [[Hnil Hle] | (p & Hp & Hlt)]; [left | right].
    + split; [assumption | lia].
    + exists p. split; [assumption | lia].
  - (* Tick *)
    destruct (0 <=? dt); [| discriminate]. injection Hstep as <-.
    exact (conj H0 Hcase).
Qed.

Lemma seq_reachable_SeqInv w : seq_reachable w -> SeqInv w.
Proof.
  intros [evs Hrun]. revert evs w Hrun.
  apply run_ind; [exact SeqInv_init | exact SeqInv_step].
Qed.

Lemma seq_reachable_reachable w : seq_reachable w -> reachable w.
Proof.
  intros [evs Hrun]. revert evs w Hrun. apply run_ind.
  - now exists [].
  - intros w e w' [evs Hrun] Hstep. exists (evs ++ [e]).
    eapply run_step_snoc; [exact Hrun | now apply seq_step_step].
Qed.

(** What the page lets through is a step of non-overlapping submissions,
    or nothing at all. *)
Lemma ui_step_cases w e w' :
  Loading w -> ui_step w e = Some w' -> w' = w \/ seq_step w e = Some w'.
Proof.
  intros Hl Hstep. destruct e; simpl in *; auto.
  unfold submitDisabled in Hstep.
  destruct (file (ui w)) as [f |]; [| left; congruence].
  destruct (isLoading (ui w)) eqn:El; [left; congruence |].
  destruct (inflight w) as [| p l] eqn:Ep; [auto |].
  unfold Loading in Hl. rewrite Ep, El in Hl. now discriminate Hl.
Qed.

Lemma Loading_step w e w' :
  SeqInv w -> Loading w -> ui_step w e = Some w' -> Loading w'.
Proof.
  intros [_ Hcase] Hl Hstep. unfold Loading in *.
  destruct e as [files | | i v | i | dt]; simpl in Hstep.
  - destruct (handleFileChange files (ui w)) as [s |] eqn:E;
      injection Hstep as <-; [| assumption].
    apply handleFileChange_frame in E as (_ & El & _). simpl. now rewrite El.
  - destruct (submitDisabled (ui w)); [injection Hstep as <-; assumption |].
    unfold handleSubmit in Hstep. destruct (file (ui w)) as [f |].
    + destruct (requestCount (ui w) >=? MAX_REQUESTS_PER_MINUTE);
        injection Hstep as <-; simpl; auto.
    + injection Hstep as <-. assumption.
  - destruct (inflight w !! i) as [p |] eqn:Ep; [| discriminate].
    destruct Hcase as [[Hnil _] | (q & Hq & _)]; [now rewrite Hnil in Ep |].
    rewrite Hq in Ep. destruct i as [| i]; [| discriminate].
    simpl in Hstep. destruct (resume p v) as [[p' call | text |] |];
      [| | | discriminate]; injection Hstep as <-; simpl; rewrite Hq; simpl;
      try congruence.
    intros _. apply Hl. now rewrite Hq.
  - destruct (timers w !! i) as [tm |]; [| discriminate].
    simpl in Hstep. destruct (due tm (clock w)); [| discriminate].
    injection Hstep as <-. assumption.
  - destruct (0 <=? dt); [| discriminate]. injection Hstep as <-. assumption.
Qed.

Lemma UiInv_init : UiInv initialWorld.
Proof. split; [exact SeqInv_init | intros H; now destruct H]. Qed.

Lemma UiInv_step w e w' : UiInv w -> ui_step w e = Some w' -> UiInv w'.
Proof.
  intros [Hs Hl] Hstep. split; [| now apply (Loading_step w e)].
  destruct (ui_step_cases w e w' Hl Hstep) as [-> | Hseq]; [assumption |].
  now apply (SeqInv_step w e).
Qed.

Lemma ui_reachable_UiInv w : ui_reachable w -> UiInv w.
Proof.
  intros [evs Hrun]. revert evs w Hrun.
  apply run_ind; [exact UiInv_init | exact UiInv_step].
Qed.

(** The page only produces non-overlapping submissions. *)
Lemma ui_reachable_seq_reachable w : ui_reachable w -> seq_reachable w.
Proof.
  intros [evs Hrun].
  cut (UiInv w /\ seq_reachable w); [tauto |].
  revert evs w Hrun. apply run_ind.
  - split; [exact UiInv_init | now exists []].
  - intros w e w' [Hinv [evs Hrun]] Hstep.
    split; [now apply (UiInv_step w e) |].
    destruct (ui_step_cases w e w' (proj2 Hinv) Hstep) as [-> | Hseq].
    + now exists evs.
    + exists (evs ++ [e]). now apply (run_step_snoc seq_step evs e w).
Qed.

Lemma ui_reachable_reachable w : ui_reachable w -> reachable w.
Proof. intros H. now apply seq_reachable_reachable, ui_reachable_seq_reachable. Qed.

(** ** Handler-level facts shared by the properties below *)

Lemma MAX_REQUESTS_PER_MINUTE_value : MAX_REQUESTS_PER_MINUTE = 10.
Proof. reflexivity. Qed.

Lemma REQUEST_INTERVAL_value : REQUEST_INTERVAL = 60000.
Proof. reflexivity. Qed.

Lemma MAX_FILE_SIZE_value : MAX_FILE_SIZE = 10485760.
Proof. reflexivity. Qed.


Lemma handleSubmit_below_limit s f :
  file s = Some f -> requestCount s < MAX_REQUESTS_PER_MINUTE ->
  handleSubmit s
  = Suspended (setProgress 0 (setError "" (setIsLoading true s)))
              {| p_file := f; p_stage := AwaitArrayBuffer |}.
Proof.
  intros Hf Hlt. unfold handleSubmit. rewrite Hf.
  replace (requestCount s >=? MAX_REQUESTS_PER_MINUTE) with false by lia.
  reflexivity.
Qed.

Lemma handleSubmit_no_file s : file s = None -> handleSubmit s = Returned s.
Proof. intros Hf. unfold handleSubmit. now rewrite Hf. Qed.

(** The ways a suspended call ends in [catch]. *)
Lemma resume_Failed_iff p v :
  resume p v = Some Failed <->
  v = Rejected
  \/ (p_stage p = AwaitResponse /\ v = Response None)
  \/ (p_stage p = AwaitArrayBuffer
      /\ exists bytes, v = Buffer bytes /\ arrayBufferToBase64 bytes = None).
Proof.
  unfold resume. split.
  - destruct (p_stage p), v as [| bytes | | [text |]]; try discriminate; auto.
    destruct (arrayBufferToBase64 bytes) eqn:E; [discriminate |]. eauto 10.
  - intros [-> | [[-> ->] | (-> & bytes & -> & ->)]]; [| reflexivity ..].
    destruct (p_stage p); reflexivity.
Qed.

(** The way it ends with a transcript. *)
Lemma resume_Succeeded_iff p v text :
  resume p v = Some (Succeeded text) <->
  p_stage p = AwaitResponse /\ v = Response (Some text).
Proof.
  unfold resume. split.
  - destruct (p_stage p), v as [| bytes | | [t |]]; try discriminate.
    + destruct (arrayBufferToBase64 bytes); discriminate.
    + intros [= ->]. auto.
  - intros [-> ->]. reflexivity.
Qed.

Lemma step_success w i p text :
  inflight w !! i = Some p -> p_stage p = AwaitResponse ->
  step w (Settle i (Response (Some text)))
  = Some {| ui := on_success text (ui w); clock := clock w;
            inflight := delete i (inflight w);
            timers := timers w ++ [ {| scheduledAt := clock w;
                                       delay := REQUEST_INTERVAL |} ];
            requests := requests w |}.
Proof.
  intros Hp Hs. simpl. rewrite Hp. simpl.
  rewrite (proj2 (resume_Succeeded_iff p _ text)) by auto. reflexivity.
Qed.

Lemma step_failure w i p v :
  inflight w !! i = Some p -> resume p v = Some Failed ->
  step w (Settle i v)
  = Some {| ui := on_failure (ui w); clock := clock w;
            inflight := delete i (inflight w);
            timers := timers w; requests := requests w |}.
Proof. intros Hp Hr. simpl. rewrite Hp. simpl. rewrite Hr. reflexivity. Qed.

Lemma step_fire w i tm :
  timers w !! i = Some tm ->
  step w (Fire i)
  = if due tm (clock w) then
      Some {| ui := decrement (ui w); clock := clock w;
              inflight := inflight w; timers := delete i (timers w);
              requests := requests w |}
    else None.
Proof. intros Htm. simpl. rewrite Htm. reflexivity. Qed.

Lemma reachable_world_after evs :
  is_Some (run step evs initialWorld) -> reachable (world_after evs).
Proof.
  intros [w Hw]. exists evs. unfold world_after. now rewrite Hw.
Defined.

(** * The encoder *)

(** C5.  Every sequence of octets (elements in 0..255) is encoded by
    [arrayBufferToBase64] without failure, and standard base64 decoding
    of the resulting text gives back exactly the original sequence. *)
Theorem arrayBufferToBase64_roundtrip (buffer : list Z) :
  is_octets buffer ->
  exists s, arrayBufferToBase64 buffer = Some s
            /\ base64_decode s = Some buffer.
Proof.
  intros H. unfold arrayBufferToBase64, btoa.
  rewrite binary_of_octets, octets_pass_btoa by assumption.
  eexists. split; [reflexivity |].
  unfold base64_decode. rewrite list_ascii_of_string_of_list_ascii.
  now apply decode_encode.
Qed.

Lemma all_octets_are_octets : is_octets all_octets.
Proof.
  apply List.Forall_forall. intros b Hb.
  apply List.in_map_iff in Hb as (n & <- & Hn). apply List.in_seq in Hn. lia.
Defined.

(** The sequence 0, 1, ..., 255 survives the round trip. *)
Lemma arrayBufferToBase64_roundtrip_all_octets :
  exists s, arrayBufferToBase64 all_octets = Some s
            /\ base64_decode s = Some all_octets.
Proof. exact (arrayBufferToBase64_roundtrip all_octets all_octets_are_octets). Defined.

Example arrayBufferToBase64_Man :
  arrayBufferToBase64 [77; 97; 110] = Some "TWFu"%string
  /\ arrayBufferToBase64 [77; 97] = Some "TWE="%string
  /\ arrayBufferToBase64 [77] = Some "TQ=="%string
  /\ arrayBufferToBase64 [] = Some ""%string.
Proof. repeat split; reflexivity. Qed.

Example base64_decode_Man :
  base64_decode "TWFu" = Some [77; 97; 110]
  /\ base64_decode "TQ==" = Some [77]
  /\ base64_decode "TWE" = None.
Proof. repeat split; reflexivity. Qed.

Example all_octets_computed :
  (arrayBufferToBase64 all_octets ≫= base64_decode) = Some all_octets.
Proof. vm_compute. reflexivity. Qed.

(** * The validator *)

(** C6.  When the candidate file (element 0 of the event's file list) is
    larger than [MAX_FILE_SIZE] = 10 MiB, [handleFileChange] returns
    having set the size-limit message and nothing else: the selected file
    and every other state cell keep their values. *)
Theorem oversized_file_rejected (s : State) (files : list File.t) (f : File.t) :
  files !! 0%nat = Some f ->
  File.size f > 10 * 1024 * 1024 ->
  exists s',
    handleFileChange (Some files) s = Normal s'
    /\ error s' = "File size exceeds the maximum limit of 10MB."%string
    /\ file s' = file s
    /\ transcript s' = transcript s /\ isLoading s' = isLoading s
    /\ progress s' = progress s /\ requestCount s' = requestCount s.
Proof.
  intros Hf Hsize. exists (setError SIZE_LIMIT_ERROR s).
  unfold handleFileChange. rewrite Hf.
  replace (File.size f >? MAX_FILE_SIZE) with true
    by (unfold MAX_FILE_SIZE; lia).
  repeat split.
Qed.

Lemma oversized_file_rejected_witness :
  exists s',
    handleFileChange (Some [oversized]) (setFile (Some sample) initialState) = Normal s'
    /\ error s' = "File size exceeds the maximum limit of 10MB."%string
    /\ file s' = Some sample
    /\ transcript s' = ""%string /\ isLoading s' = false
    /\ progress s' = 0 /\ requestCount s' = 0.
Proof.
  apply (oversized_file_rejected (setFile (Some sample) initialState)
           [oversized] oversized); [reflexivity | vm_compute; reflexivity].
Defined.

(** C7.  For a candidate file within the size limit: if its MIME type is
    outside [SUPPORTED_FORMATS] = audio/mp3, audio/mpeg, audio/wav,
    audio/x-wav, audio/ogg, the format message is set and the selected
    file is unchanged; if its MIME type is in the list, the candidate
    becomes the selected file and the error is cleared. *)
Theorem format_check (s : State) (files : list File.t) (f : File.t) :
  files !! 0%nat = Some f ->
  File.size f <= MAX_FILE_SIZE ->
  (File.type f ∉ SUPPORTED_FORMATS ->
     exists s',
       handleFileChange (Some files) s = Normal s'
       /\ error s' = FORMAT_ERROR /\ file s' = file s)
  /\ (File.type f ∈ SUPPORTED_FORMATS ->
     exists s',
       handleFileChange (Some files) s = Normal s'
       /\ file s' = Some f /\ error s' = ""%string).
Proof.
  intros Hf Hsize. unfold handleFileChange. rewrite Hf.
  replace (File.size f >? MAX_FILE_SIZE) with false by lia.
  split; intros Hty.
  - apply isAudioFormatSupported_false in Hty. rewrite Hty. simpl. eauto.
  - apply isAudioFormatSupported_spec in Hty. rewrite Hty. simpl. eauto.
Qed.

Lemma format_check_witness :
  (exists s',
     handleFileChange (Some [video]) (setFile (Some sample) initialState) = Normal s'
     /\ error s' = FORMAT_ERROR /\ file s' = Some sample)
  /\ (exists s',
     handleFileChange (Some [sample]) (setError FORMAT_ERROR initialState) = Normal s'
     /\ file s' = Some sample /\ error s' = ""%string).
Proof.
  split.
  - apply (format_check (setFile (Some sample) initialState) [video] video);
      [reflexivity | vm_compute; discriminate |].
    intros Hin. apply isAudioFormatSupported_spec in Hin. discriminate Hin.
  - apply (format_check (setError FORMAT_ERROR initialState) [sample] sample);
      [reflexivity | vm_compute; discriminate |].
    apply isAudioFormatSupported_spec. reflexivity.
Defined.

(** C10.  With a non-null file list, [handleFileChange] reads element 0
    and dereferences it unconditionally: it throws a [TypeError] exactly
    when the list is empty, and returns normally exactly when the list
    has a first element.  (With a null list it returns at once.) *)
Theorem handleFileChange_needs_a_file (s : State) (files : list File.t) :
  (handleFileChange (Some files) s = Throw TypeError <-> files = [])
  /\ ((exists s', handleFileChange (Some files) s = Normal s') <-> files <> [])
  /\ handleFileChange None s = Normal s.
Proof.
  unfold handleFileChange. destruct files as [| f rest]; simpl.
  - repeat split; try congruence. intros [s' H]. discriminate.
  - destruct (File.size f >? MAX_FILE_SIZE);
      [| destruct (negb (isAudioFormatSupported f))];
      (repeat split; try congruence; eauto).
Qed.

Lemma handleFileChange_needs_a_file_witness :
  handleFileChange (Some []) initialState = Throw TypeError
  /\ exists s', handleFileChange (Some [sample]) initialState = Normal s'.
Proof.
  split.
  - apply (proj1 (handleFileChange_needs_a_file initialState [])). reflexivity.
  - apply (proj1 (proj2 (handleFileChange_needs_a_file initialState [sample]))).
    discriminate.
Defined.

(** * The rate limiter *)






(** The same bound for direct calls of the handlers, as long as
    [handleSubmit] is not called again before its previous call has
    completed. *)
Lemma sequential_requestCount_bounded (w : World) :
  seq_reachable w ->
  0 <= requestCount (ui w) <= MAX_REQUESTS_PER_MINUTE.
Proof.
  intros Hr. destruct (seq_reachable_SeqInv w Hr) as [H0 Hcase].
  split; [assumption |].
  destruct Hcase as [[_ Hle] | (p & _ & Hlt)]; lia.
Qed.

(** The bound rests on that discipline, which the page enforces by
    disabling the submit button while a call is pending: [handleSubmit]
    checks the counter when it is called and increments it when it
    completes, so calls started together all pass the gate.  Through the
    page, the same eleven activations start one call only. *)
Lemma overlapping_calls_pass_the_gate :
  reachable (world_after (overlapped 11))
  /\ requestCount (ui (world_after (overlapped 11))) = 11
  /\ (w ← run ui_step (Change (Some [sample]) :: replicate 11 Submit) initialWorld;
      Some (length (inflight w)))
     = Some 1%nat.
Proof.
  split; [| split; vm_compute; reflexivity].
  apply reachable_world_after. vm_compute. eauto.
Qed.

(** C3.  In every state of the page: (1) a submission whose last await
    resolves with text raises the counter by exactly one in that very
    step and registers one decrement with delay [REQUEST_INTERVAL] =
    60000 ms at the current time; (2) every registered decrement has that
    delay, can run exactly when at least 60000 ms have passed since it
    was registered, and when it runs it lowers the counter by exactly
    one, which is [max (count - 1) 0]; (3) the counter is never
    negative. *)
Theorem success_counts_then_expires (w : World) :
  reachable w ->
  (forall i p text,
      inflight w !! i = Some p -> p_stage p = AwaitResponse ->
      exists w',
        step w (Settle i (Response (Some text))) = Some w'
        /\ requestCount (ui w') = requestCount (ui w) + 1
        /\ timers w' = timers w ++ [ {| scheduledAt := clock w; delay := 60000 |} ])
  /\ (forall i tm,
      timers w !! i = Some tm ->
      delay tm = 60000
      /\ (is_Some (step w (Fire i)) <-> scheduledAt tm + 60000 <= clock w)
      /\ forall w',
          step w (Fire i) = Some w' ->
          scheduledAt tm + 60000 <= clock w'
          /\ requestCount (ui w') = Z.max (requestCount (ui w) - 1) 0
          /\ requestCount (ui w') = requestCount (ui w) - 1
          /\ timers w' = delete i (timers w))
  /\ 0 <= requestCount (ui w).
Proof.
  intros Hr. destruct (reachable_Inv w Hr) as [Hc Ht _].
  split; [| split].
  - intros i p text Hp Hs. rewrite (step_success w i p text Hp Hs).
    eexists. split; [reflexivity |]. simpl. auto.
  - intros i tm Htm.
    assert (Hok : timer_ok (clock w) tm).
    { rewrite Forall_lookup in Ht. eauto. }
    destruct Hok as [Hd _].
    pose proof (lookup_lt_Some _ _ _ Htm) as Hlt.
    rewrite (step_fire w i tm Htm). unfold due. rewrite Hd.
    change REQUEST_INTERVAL with 60000.
    split; [reflexivity |]. split.
    + destruct (scheduledAt tm + 60000 <=? clock w) eqn:E.
      * split; [lia | eauto].
      * split; [intros [? ?]; discriminate | lia].
    + intros w'. destruct (scheduledAt tm + 60000 <=? clock w) eqn:E;
        [| discriminate].
      intros [= <-]. simpl. repeat split; lia.
  - lia.
Qed.

Lemma success_counts_then_expires_witness :
  (exists w',
      step (world_after awaiting_response) (Settle 0 (Response (Some "hello"%string)))
      = Some w'
      /\ requestCount (ui w') = requestCount (ui (world_after awaiting_response)) + 1
      /\ timers w'
         = timers (world_after awaiting_response)
           ++ [ {| scheduledAt := clock (world_after awaiting_response);
                   delay := 60000 |} ])
  /\ (is_Some (step (world_after (session 1 ++ [Tick 60000])) (Fire 0))
      /\ ~ is_Some (step (world_after (session 1 ++ [Tick 59999])) (Fire 0)))
  /\ 0 <= requestCount (ui (world_after (session 1))).
Proof.
  split; [| split].
  - refine (proj1 (success_counts_then_expires (world_after awaiting_response) _)
              0%nat {| p_file := sample; p_stage := AwaitResponse |} _ _ _);
      [| reflexivity | reflexivity].
    apply reachable_world_after. vm_compute. eauto.
  - split.
    + refine (proj2 (proj1 (proj2 (proj1 (proj2
               (success_counts_then_expires (world_after (session 1 ++ [Tick 60000])) _))
               0%nat {| scheduledAt := 0; delay := 60000 |} _))) _);
        [| reflexivity | vm_compute; discriminate].
      apply reachable_world_after. vm_compute. eauto.
    + intros Hfire.
      refine ((_ : ~ (0 + 60000 <= 59999))
                (proj1 (proj1 (proj2 (proj1 (proj2
                  (success_counts_then_expires (world_after (session 1 ++ [Tick 59999])) _))
                  0%nat {| scheduledAt := 0; delay := 60000 |} _))) Hfire));
        [lia | | reflexivity].
      apply reachable_world_after. vm_compute. eauto.
  - refine (proj2 (proj2 (success_counts_then_expires (world_after (session 1)) _))).
    apply reachable_world_after. vm_compute. eauto.
Defined.



(** * The request orchestrator *)

(** C8.  When the last await of a pending submission resolves with a
    response whose text is [text], the step completes with the transcript
    equal to [text], the loading flag false and progress 100. *)
Theorem success_stores_transcript (w : World) (i : nat) (p : Pending)
    (text : string) :
  inflight w !! i = Some p ->
  p_stage p = AwaitResponse ->
  exists w',
    step w (Settle i (Response (Some text))) = Some w'
    /\ transcript (ui w') = text
    /\ isLoading (ui w') = false
    /\ progress (ui w') = 100.
Proof.
  intros Hp Hs. rewrite (step_success w i p text Hp Hs).
  eexists. split; [reflexivity |]. simpl. auto.
Qed.

Lemma success_stores_transcript_witness :
  exists w',
    step (world_after awaiting_response)
         (Settle 0 (Response (Some "good morning"%string))) = Some w'
    /\ transcript (ui w') = "good morning"%string
    /\ isLoading (ui w') = false
    /\ progress (ui w') = 100.
Proof.
  apply (success_stores_transcript (world_after awaiting_response) 0
           {| p_file := sample; p_stage := AwaitResponse |});
    reflexivity.
Defined.

(** C9.  When a pending submission ends in [catch] (the awaited promise
    rejects at any stage, the response has no text, or the encoding
    fails), the step completes with the transcript as it was before, the
    generic transcription message as error, the loading flag false and
    progress 100. *)
Theorem failure_keeps_transcript (w : World) (i : nat) (p : Pending)
    (v : Settled) :
  inflight w !! i = Some p ->
  resume p v = Some Failed ->
  exists w',
    step w (Settle i v) = Some w'
    /\ transcript (ui w') = transcript (ui w)
    /\ error (ui w') = "Error transcribing audio. Please try again."%string
    /\ isLoading (ui w') = false
    /\ progress (ui w') = 100.
Proof.
  intros Hp Hfail. rewrite (step_failure w i p v Hp Hfail).
  eexists. split; [reflexivity |]. simpl. auto.
Qed.

Lemma failure_keeps_transcript_witness :
  exists w',
    step (world_after (session 1 ++ [Submit; Settle 0 (Buffer [1; 2; 3])]))
         (Settle 0 Rejected) = Some w'
    /\ transcript (ui w') = "hello"%string
    /\ error (ui w') = "Error transcribing audio. Please try again."%string
    /\ isLoading (ui w') = false
    /\ progress (ui w') = 100.
Proof.
  apply (failure_keeps_transcript
           (world_after (session 1 ++ [Submit; Settle 0 (Buffer [1; 2; 3])])) 0
           {| p_file := sample; p_stage := AwaitGenerateContent |} Rejected);
    reflexivity.
Defined.

(** A full session, end to end: ten transcriptions fill the limiter, the
    eleventh submission is turned away, and a minute later the slots are
    free again. *)
Example limiter_session :
  let w10 := world_after (session 10) in
  requestCount (ui w10) = 10
  /\ length (requests w10) = 10%nat
  /\ (w ← step w10 Submit; Some (error (ui w), length (requests w), inflight w))
     = Some (RATE_LIMIT_ERROR, 10%nat, [])
  /\ step w10 (Fire 0) = None
  /\ (w ← run step [Tick 60000; Fire 0; Fire 0; Submit] w10;
      Some (requestCount (ui w), length (inflight w), error (ui w)))
     = Some (8, 1%nat, ""%string).
Proof. vm_compute. repeat split. Qed.

(** * Further properties of the encoder *)

Lemma encode_length bs :
  length (Base64.encode bs) = (4 * ((length bs + 2) / 3))%nat.
Proof.
  induction bs as [| a | a b | a b c rest IH] using list_ind3;
    [reflexivity .. |].
  cbn [Base64.encode length]. rewrite IH.
  replace (S (S (S (length rest))) + 2)%nat with (length rest + 2 + 1 * 3)%nat by lia.
  rewrite Nat.div_add by lia. lia.
Qed.

(** X1.  The text produced for a buffer of [n] octets has exactly
    [4 * ceil(n / 3)] characters. *)
Theorem arrayBufferToBase64_length (buffer : list Z) :
  is_octets buffer ->
  exists s,
    arrayBufferToBase64 buffer = Some s
    /\ String.length s = (4 * ((length buffer + 2) / 3))%nat.
Proof.
  intros H. unfold arrayBufferToBase64, btoa.
  rewrite binary_of_octets, octets_pass_btoa by assumption.
  eexists. split; [reflexivity |].
  rewrite <- (encode_length buffer).
  generalize (Base64.encode buffer) as cs.
  induction cs as [| c cs IH]; simpl; congruence.
Qed.

Lemma arrayBufferToBase64_length_witness :
  exists s,
    arrayBufferToBase64 all_octets = Some s /\ String.length s = 344%nat.
Proof. exact (arrayBufferToBase64_length all_octets all_octets_are_octets). Defined.

(** X2.  Different buffers never get the same text: two distinct
    buffers of octets have distinct encodings. *)
Theorem arrayBufferToBase64_injective (b1 b2 : list Z) :
  is_octets b1 -> is_octets b2 ->
  b1 <> b2 -> arrayBufferToBase64 b1 <> arrayBufferToBase64 b2.
Proof.
  intros H1 H2 Hne Heq. apply Hne.
  pose proof (decode_encode b1 H1) as D1. pose proof (decode_encode b2 H2) as D2.
  unfold arrayBufferToBase64, btoa in Heq.
  rewrite !binary_of_octets, !octets_pass_btoa in Heq by assumption.
  injection Heq as Heq.
  apply (f_equal list_ascii_of_string) in Heq.
  rewrite !list_ascii_of_string_of_list_ascii in Heq.
  rewrite Heq in D1. congruence.
Qed.

Lemma arrayBufferToBase64_injective_witness :
  arrayBufferToBase64 [77; 97] <> arrayBufferToBase64 [77; 97; 0].
Proof.
  apply (arrayBufferToBase64_injective [77; 97] [77; 97; 0]);
    [repeat constructor; lia .. | discriminate].
Defined.

(** * Further properties of the validator *)

Lemma acceptable_dec f :
  acceptable f
  <-> (File.size f >? MAX_FILE_SIZE) = false /\ isAudioFormatSupported f = true.
Proof.
  unfold acceptable. rewrite isAudioFormatSupported_spec.
  split; intros [H1 H2]; (split; [lia | assumption]).
Qed.

(** X3.  A file change with at least one file looks at the first file
    only.  If that file is acceptable (size at most [MAX_FILE_SIZE],
    the bound included, and an allow-listed type) it becomes the
    selected file and no error line is shown; otherwise the selected
    file is kept and an error line is shown, the size message taking
    precedence over the format message. *)
Theorem handleFileChange_decides (s : State) (f : File.t) (rest : list File.t) :
  exists s',
    handleFileChange (Some (f :: rest)) s = Normal s'
    /\ handleFileChange (Some [f]) s = Normal s'
    /\ (acceptable f ->
        file s' = Some f /\ errorLine (render s') = None)
    /\ (~ acceptable f ->
        file s' = file s
        /\ errorLine (render s')
           = Some (if File.size f >? MAX_FILE_SIZE
                   then SIZE_LIMIT_ERROR else FORMAT_ERROR)).
Proof.
  unfold handleFileChange. simpl.
  pose proof (acceptable_dec f) as Hacc.
  destruct (File.size f >? MAX_FILE_SIZE) eqn:Esz.
  - eexists. split; [reflexivity |]. split; [reflexivity |]. split.
    + intros [Habs _]%Hacc. discriminate.
    + intros _. split; reflexivity.
  - destruct (isAudioFormatSupported f) eqn:Ety; simpl;
      (eexists; split; [reflexivity |]; split; [reflexivity |]; split).
    + intros _. split; reflexivity.
    + intros Hno. exfalso. apply Hno, Hacc. auto.
    + intros [_ Habs]%Hacc. discriminate.
    + intros _. split; reflexivity.
Qed.

Lemma handleFileChange_decides_witness :
  (exists s',
     handleFileChange (Some [sample; oversized]) initialState = Normal s'
     /\ file s' = Some sample /\ errorLine (render s') = None)
  /\ (exists s',
     handleFileChange (Some [oversized; sample]) initialState = Normal s'
     /\ file s' = None /\ errorLine (render s') = Some SIZE_LIMIT_ERROR).
Proof.
  split.
  - destruct (handleFileChange_decides initialState sample [oversized])
      as (s' & H1 & _ & Hyes & _).
    exists s'. split; [exact H1 |]. apply Hyes.
    split; [vm_compute; discriminate | apply isAudioFormatSupported_spec; reflexivity].
  - destruct (handleFileChange_decides initialState oversized [sample])
      as (s' & H1 & _ & _ & Hno).
    exists s'. split; [exact H1 |]. apply Hno.
    intros [Hsz _]. vm_compute in Hsz. now apply Hsz.
Defined.

(** * Further invariants of the page *)

Lemma reachable_ind (P : World -> Prop) :
  P initialWorld ->
  (forall w e w', reachable w -> P w -> step w e = Some w' -> P w') ->
  forall w, reachable w -> P w.
Proof.
  intros Hinit Hstep w [evs Hrun].
  cut (reachable w /\ P w); [tauto |].
  revert evs w Hrun. apply run_ind.
  - split; [now exists [] | assumption].
  - intros w e w' [[evs Hrun] HP] He. split.
    + exists (evs ++ [e]). now apply (run_step_snoc step evs e w).
    + apply (Hstep w e); [now exists evs | assumption ..].
Qed.

Lemma handleFileChange_selects files s s' :
  handleFileChange files s = Normal s' ->
  file s' = file s \/ exists f, file s' = Some f /\ acceptable f.
Proof.
  unfold handleFileChange. intros H.
  destruct files as [fl |]; [| injection H as <-; auto].
  destruct (fl !! 0%nat) as [f |]; [| discriminate].
  destruct (File.size f >? MAX_FILE_SIZE) eqn:Esz; [injection H as <-; auto |].
  destruct (isAudioFormatSupported f) eqn:Ety; injection H as <-; simpl; auto.
  right. exists f. split; [reflexivity |]. apply acceptable_dec. auto.
Qed.

Lemma resume_Awaiting p v p' call :
  resume p v = Some (Awaiting p' call) ->
  p_file p' = p_file p
  /\ (issued p <= issued p')%nat
  /\ (issued p' = issued p + length (option_list call))%nat
  /\ forall r, call = Some r ->
       p_stage p = AwaitArrayBuffer /\ mimeType r = File.type (p_file p)
       /\ exists bytes, v = Buffer bytes
                        /\ arrayBufferToBase64 bytes = Some (data r).
Proof.
  unfold resume, issued.
  destruct (p_stage p) eqn:Es, v as [| bytes | | [t |]]; try discriminate.
  - destruct (arrayBufferToBase64 bytes) eqn:E; [| discriminate].
    intros [= <- <-]. simpl. split; [reflexivity |]. split; [lia |].
    split; [lia |]. intros req [= <-]. simpl. eauto.
  - intros [= <- <-]. simpl. split; [reflexivity |]. split; [lia |].
    split; [lia |]. discriminate.
Qed.

Lemma Validated_init : Validated initialWorld.
Proof. split; simpl; [discriminate | constructor ..]. Qed.

Lemma Validated_step w e w' : Validated w -> step w e = Some w' -> Validated w'.
Proof.
  intros [Hf Hi Hr] Hstep. destruct e as [files | | i v | i | dt]; simpl in Hstep.
  - destruct (handleFileChange files (ui w)) as [s |] eqn:E;
      injection Hstep as <-; [| split; auto].
    split; simpl; [| assumption ..].
    intros f Hs. destruct (handleFileChange_selects _ _ _ E) as [Hsame | (g & Hg & Hok)].
    + apply Hf. congruence.
    + congruence.
  - unfold handleSubmit in Hstep. destruct (file (ui w)) as [f |] eqn:Efile.
    + destruct (requestCount (ui w) >=? MAX_REQUESTS_PER_MINUTE);
        injection Hstep as <-; split; simpl; auto;
        try (intros g Hg; apply Hf; congruence).
      apply Forall_app_2; [assumption |].
      constructor; [| constructor]. simpl. now apply Hf.
    + injection Hstep as <-. split; simpl; auto. rewrite Efile. discriminate.
  - destruct (inflight w !! i) as [p |] eqn:Ep; [| discriminate].
    assert (Hp : acceptable (p_file p)).
    { rewrite Forall_lookup in Hi. exact (Hi i p Ep). }
    simpl in Hstep. destruct (resume p v) as [[p' call | text |] |] eqn:Er;
      [| | | discriminate]; injection Hstep as <-; split; simpl; auto.
    + apply Forall_insert; [assumption |].
      apply resume_Awaiting in Er as (-> & _). assumption.
    + apply Forall_app_2; [assumption |].
      apply resume_Awaiting in Er as (_ & _ & _ & Hcall).
      destruct call as [r |]; simpl; [| constructor].
      destruct (Hcall r eq_refl) as (_ & Hm & _).
      constructor; [| constructor]. rewrite Hm. apply Hp.
    + now apply Forall_delete.
    + now apply Forall_delete.
  - destruct (timers w !! i) as [tm |]; [| discriminate].
    simpl in Hstep. destruct (due tm (clock w)); [| discriminate].
    injection Hstep as <-. split; simpl; auto.
  - destruct (0 <=? dt); [| discriminate]. injection Hstep as <-.
    split; simpl; auto.
Qed.

(** X4.  Only validated audio is ever selected, captured or sent: in
    every reachable state the selected file and the file of every
    suspended submission are within the size limit and of an allow-listed
    type, and every external call issued so far carries an allow-listed
    MIME type. *)
Theorem only_validated_files (w : World) :
  reachable w ->
  (forall f, file (ui w) = Some f -> acceptable f)
  /\ Forall (fun p => acceptable (p_file p)) (inflight w)
  /\ Forall (fun r => mimeType r ∈ SUPPORTED_FORMATS) (requests w).
Proof.
  intros Hr. cut (Validated w); [intros [? ? ?]; auto |].
  revert w Hr. apply reachable_ind; [exact Validated_init |].
  intros w e w' _. apply Validated_step.
Qed.

Lemma only_validated_files_witness :
  Forall (fun r => mimeType r ∈ SUPPORTED_FORMATS)
         (requests (world_after (session 3))).
Proof.
  refine (proj2 (proj2 (only_validated_files (world_after (session 3)) _))).
  apply reachable_world_after. vm_compute. eauto.
Defined.

Lemma Pristine_step w e w' : Pristine w -> step w e = Some w' -> Pristine w'.
Proof.
  unfold Pristine. intros HP Hstep Hnone.
  destruct e as [files | | i v | i | dt]; simpl in Hstep.
  - destruct (handleFileChange files (ui w)) as [s |] eqn:E;
      injection Hstep as <-; [| auto].
    simpl in *. pose proof (handleFileChange_frame _ _ _ E) as (Et & El & Ep & Ec & _).
    destruct (handleFileChange_selects _ _ _ E) as [Hsame | (g & Hg & _)];
      [| congruence].
    rewrite Et, El, Ep, Ec. apply HP. congruence.
  - unfold handleSubmit in Hstep. destruct (file (ui w)) as [f |] eqn:Efile.
    + destruct (requestCount (ui w) >=? MAX_REQUESTS_PER_MINUTE);
        injection Hstep as <-; simpl in Hnone; congruence.
    + injection Hstep as <-. simpl in *. auto.
  - destruct (inflight w !! i) as [p |] eqn:Ep; [| discriminate].
    simpl in Hstep. destruct (resume p v) as [[p' call | text |] |];
      [| | | discriminate]; injection Hstep as <-; simpl in Hnone;
      destruct (HP Hnone) as (_ & _ & _ & _ & Hin & _); now rewrite Hin in Ep.
  - destruct (timers w !! i) as [tm |] eqn:Etm; [| discriminate].
    simpl in Hstep. destruct (due tm (clock w)); [| discriminate].
    injection Hstep as <-. simpl in Hnone.
    destruct (HP Hnone) as (_ & _ & _ & _ & _ & Ht & _). now rewrite Ht in Etm.
  - destruct (0 <=? dt); [| discriminate]. injection Hstep as <-. simpl in *. auto.
Qed.

(** X5.  Nothing happens before a file has passed the validator: in
    every reachable state without a selected file, no external call has
    been issued, no submission is pending, no timer is registered, the
    counter is 0, and transcript, loading flag and progress have their
    initial values. *)
Theorem nothing_without_a_file (w : World) :
  reachable w ->
  file (ui w) = None ->
  transcript (ui w) = ""%string /\ isLoading (ui w) = false
  /\ progress (ui w) = 0 /\ requestCount (ui w) = 0
  /\ inflight w = [] /\ timers w = [] /\ requests w = [].
Proof.
  intros Hr. fold (Pristine w). revert w Hr. apply reachable_ind.
  - intros _. repeat split.
  - intros w e w' _. apply Pristine_step.
Qed.

Lemma nothing_without_a_file_witness :
  requests (world_after [Change (Some [oversized]); Submit; Change (Some [video]);
                         Tick 5; Submit]) = [].
Proof.
  refine (proj2 (proj2 (proj2 (proj2 (proj2 (proj2
    (nothing_without_a_file
       (world_after [Change (Some [oversized]); Submit; Change (Some [video]);
                     Tick 5; Submit]) _ _))))))).
  - apply reachable_world_after. vm_compute. eauto.
  - reflexivity.
Defined.

(** X6.  In every reachable state the counter equals the number of
    decrements registered and not yet run: each success adds one to both,
    each timer that runs takes one from both. *)
Theorem requestCount_counts_timers (w : World) :
  reachable w -> requestCount (ui w) = Z.of_nat (length (timers w)).
Proof. intros Hr. now destruct (reachable_Inv w Hr). Qed.

Lemma requestCount_counts_timers_witness :
  requestCount (ui (world_after (session 4 ++ [Tick 60000; Fire 2])))
  = Z.of_nat (length (timers (world_after (session 4 ++ [Tick 60000; Fire 2])))).
Proof.
  apply requestCount_counts_timers.
  apply reachable_world_after. vm_compute. eauto.
Defined.

Lemma sum_issued_delete (l : list Pending) i p :
  l !! i = Some p ->
  sum_list_with issued l = (issued p + sum_list_with issued (delete i l))%nat.
Proof.
  revert i. induction l as [| q l IH]; intros [| i] H; try discriminate; simpl in *.
  - now injection H as ->.
  - rewrite (IH i H). lia.
Qed.

Lemma sum_issued_insert (l : list Pending) i p p' :
  l !! i = Some p ->
  (sum_list_with issued (<[i := p']> l) + issued p
   = sum_list_with issued l + issued p')%nat.
Proof.
  revert i. induction l as [| q l IH]; intros [| i] H; try discriminate; simpl in *.
  - injection H as ->. lia.
  - specialize (IH i H). lia.
Qed.

Lemma accounted_step w e w' :
  (length (timers w) + sum_list_with issued (inflight w)
   <= length (requests w))%nat ->
  step w e = Some w' ->
  (length (timers w') + sum_list_with issued (inflight w')
   <= length (requests w'))%nat.
Proof.
  intros H Hstep. destruct e as [files | | i v | i | dt]; simpl in Hstep.
  - destruct (handleFileChange files (ui w)); injection Hstep as <-; exact H.
  - destruct (handleSubmit (ui w)) as [s | s p] eqn:E; injection Hstep as <-;
      simpl; [exact H |].
    unfold handleSubmit in E. destruct (file (ui w)); [| discriminate].
    destruct (requestCount (ui w) >=? MAX_REQUESTS_PER_MINUTE); [discriminate |].
    injection E as _ <-. rewrite sum_list_with_app. simpl. lia.
  - destruct (inflight w !! i) as [p |] eqn:Ep; [| discriminate].
    simpl in Hstep. destruct (resume p v) as [[p' call | text |] |] eqn:Er;
      [| | | discriminate]; injection Hstep as <-; simpl.
    + apply resume_Awaiting in Er as (_ & _ & Hiss & _).
      pose proof (sum_issued_insert _ i p p' Ep). rewrite length_app. lia.
    + apply resume_Succeeded_iff in Er as [Hs _].
      pose proof (sum_issued_delete _ i p Ep) as Hd.
      assert (Hone : issued p = 1%nat) by (unfold issued; now rewrite Hs).
      rewrite length_app. simpl. lia.
    + pose proof (sum_issued_delete _ i p Ep). lia.
  - destruct (timers w !! i) as [tm |] eqn:Etm; [| discriminate].
    simpl in Hstep. destruct (due tm (clock w)); [| discriminate].
    injection Hstep as <-. simpl.
    rewrite length_delete by eauto. lia.
  - destruct (0 <=? dt); [| discriminate]. injection Hstep as <-. exact H.
Qed.

(** X7.  The limiter never counts more than was sent: in every reachable
    state the counter, together with the suspended submissions that have
    already issued their external call, is at most the number of
    external calls issued so far. *)
Theorem requestCount_at_most_requests (w : World) :
  reachable w ->
  requestCount (ui w) + Z.of_nat (sum_list_with issued (inflight w))
  <= Z.of_nat (length (requests w)).
Proof.
  intros Hr. rewrite (inv_count w (reachable_Inv w Hr)).
  cut (length (timers w) + sum_list_with issued (inflight w)
       <= length (requests w))%nat; [lia |].
  revert w Hr. apply reachable_ind; [simpl; lia |].
  intros w e w' _. apply accounted_step.
Qed.

Lemma requestCount_at_most_requests_witness :
  requestCount (ui (world_after
     (session 2 ++ [Submit; Settle 0 (Buffer [9]); Settle 0 Rejected; Submit;
                    Settle 0 (Buffer [7])])))
  + Z.of_nat (sum_list_with issued (inflight (world_after
     (session 2 ++ [Submit; Settle 0 (Buffer [9]); Settle 0 Rejected; Submit;
                    Settle 0 (Buffer [7])]))))
  <= Z.of_nat (length (requests (world_after
     (session 2 ++ [Submit; Settle 0 (Buffer [9]); Settle 0 Rejected; Submit;
                    Settle 0 (Buffer [7])])))).
Proof.
  apply requestCount_at_most_requests.
  apply reachable_world_after. vm_compute. eauto.
Defined.

(** * What the user sees *)

Lemma Coupled_step w e w' : Coupled (ui w) -> step w e = Some w' -> Coupled (ui w').
Proof.
  unfold Coupled. intros H Hstep.
  destruct e as [files | | i v | i | dt]; simpl in Hstep.
  - destruct (handleFileChange files (ui w)) as [s |] eqn:E;
      injection Hstep as <-; [| assumption].
    apply handleFileChange_frame in E as (_ & El & Ep & _). simpl.
    now rewrite El, Ep.
  - unfold handleSubmit in Hstep. destruct (file (ui w)).
    + destruct (requestCount (ui w) >=? MAX_REQUESTS_PER_MINUTE);
        injection Hstep as <-; simpl; auto.
    + injection Hstep as <-. assumption.
  - destruct (inflight w !! i) as [p |]; [| discriminate].
    simpl in Hstep. destruct (resume p v) as [[p' call | text |] |];
      [| | | discriminate]; injection Hstep as <-; simpl; auto.
  - destruct (timers w !! i) as [tm |]; [| discriminate].
    simpl in Hstep. destruct (due tm (clock w)); [| discriminate].
    injection Hstep as <-. assumption.
  - destruct (0 <=? dt); [| discriminate]. injection Hstep as <-. assumption.
Qed.

(** X8.  The loading flag and the progress value only occur in three
    combinations: (false, 0), (true, 0) and (false, 100).  The progress
    line, which is rendered only while loading, therefore never shows
    anything but "0% Complete"; the value 100 is stored but never
    displayed.  This holds even when calls of [handleSubmit] overlap. *)
Theorem progress_line_shows_zero (w : World) :
  reachable w ->
  Coupled (ui w)
  /\ (progressLine (render (ui w)) = None
      \/ progressLine (render (ui w)) = Some "0% Complete"%string).
Proof.
  intros Hr. assert (H : Coupled (ui w)).
  { revert w Hr. apply reachable_ind; [left; auto |].
    intros w e w' _. apply Coupled_step. }
  split; [assumption |]. unfold render; simpl.
  destruct H as [[-> _] | [[-> ->] | [-> _]]]; auto.
Qed.

Lemma progress_line_shows_zero_witness :
  progressLine (render (ui (world_after (session 1 ++ [Submit]))))
  = Some "0% Complete"%string
  /\ progressLine (render (ui (world_after (session 1)))) = None.
Proof.
  split.
  - destruct (progress_line_shows_zero (world_after (session 1 ++ [Submit])))
      as [_ [H | H]]; [| discriminate H | exact H].
    apply reachable_world_after. vm_compute. eauto.
  - destruct (progress_line_shows_zero (world_after (session 1)))
      as [_ [H | H]]; [| exact H | discriminate H].
    apply reachable_world_after. vm_compute. eauto.
Defined.

Lemma idle_step w e w' :
  SeqInv w ->
  (inflight w = [] -> isLoading (ui w) = false) ->
  ui_step w e = Some w' ->
  (inflight w' = [] -> isLoading (ui w') = false).
Proof.
  intros [_ Hcase] Hidle Hstep.
  destruct e as [files | | i v | i | dt]; simpl in Hstep.
  - destruct (handleFileChange files (ui w)) as [s |] eqn:E;
      injection Hstep as <-; [| assumption].
    apply handleFileChange_frame in E as (_ & El & _). simpl. now rewrite El.
  - destruct (submitDisabled (ui w)); [injection Hstep as <-; assumption |].
    unfold handleSubmit in Hstep. destruct (file (ui w)) as [f |].
    + destruct (requestCount (ui w) >=? MAX_REQUESTS_PER_MINUTE);
        injection Hstep as <-; simpl; auto.
      intros Habs. now destruct (inflight w).
    + injection Hstep as <-. assumption.
  - destruct (inflight w !! i) as [p |] eqn:Ep; [| discriminate].
    destruct Hcase as [[Hnil _] | (q & Hq & _)]; [now rewrite Hnil in Ep |].
    rewrite Hq in Ep. destruct i as [| i]; [| discriminate].
    simpl in Hstep. destruct (resume p v) as [[p' call | text |] |];
      [| | | discriminate]; injection Hstep as <-; simpl; rewrite Hq; simpl;
      auto; discriminate.
  - destruct (timers w !! i) as [tm |]; [| discriminate].
    simpl in Hstep. destruct (due tm (clock w)); [| discriminate].
    injection Hstep as <-. assumption.
  - destruct (0 <=? dt); [| discriminate]. injection Hstep as <-. assumption.
Qed.

(** X9.  Through the page at most one submission is pending, the loading
    flag is set exactly while one is, and so the submit button is
    disabled exactly when no file is selected or a submission is pending
    and reads "Transcribing..." exactly while one is pending. *)
Theorem loading_iff_pending (w : World) :
  ui_reachable w ->
  (length (inflight w) <= 1)%nat
  /\ (isLoading (ui w) = true <-> inflight w <> [])
  /\ (buttonDisabled (render (ui w)) = true
      <-> file (ui w) = None \/ inflight w <> [])
  /\ (buttonLabel (render (ui w)) = "Transcribing..."%string <-> inflight w <> []).
Proof.
  intros [evs Hrun].
  assert (H : UiInv w /\ (inflight w = [] -> isLoading (ui w) = false)).
  { revert evs w Hrun. apply run_ind.
    - split; [exact UiInv_init | reflexivity].
    - intros w e w' [Hinv Hidle] Hstep. split.
      + now apply (UiInv_step w e).
      + now apply (idle_step w e w' (proj1 Hinv)). }
  destruct H as [[[_ Hcase] Hload] Hidle]. unfold Loading in Hload.
  assert (Hiff : isLoading (ui w) = true <-> inflight w <> []).
  { split; [| exact Hload]. intros Ht Hnil. rewrite (Hidle Hnil) in Ht. discriminate. }
  split; [| split; [exact Hiff | split]].
  - destruct Hcase as [[-> _] | (p & -> & _)]; simpl; lia.
  - unfold render, submitDisabled; simpl. destruct (file (ui w)) as [f |].
    + rewrite Hiff. split; [auto | intros [? | ?]; [discriminate | assumption]].
    + split; auto.
  - unfold render; simpl. rewrite <- Hiff.
    destruct (isLoading (ui w)); split; auto; discriminate.
Qed.

Lemma loading_iff_pending_witness :
  buttonLabel (render (ui (world_after (session 1 ++ [Submit]))))
  = "Transcribing..."%string.
Proof.
  refine (proj2 (proj2 (proj2 (proj2
    (loading_iff_pending (world_after (session 1 ++ [Submit])) _)))) _).
  - exists (session 1 ++ [Submit]). vm_compute. reflexivity.
  - vm_compute. discriminate.
Defined.

(** * The rate limit as a bound on throughput *)

Lemma filter_delete_out (P : Z -> Prop) `{!forall x, Decision (P x)}
    (l : list Z) i x :
  l !! i = Some x -> ~ P x -> filter P (delete i l) = filter P l.
Proof.
  revert i. induction l as [| y l IH]; intros [| i] Hl Hx; try discriminate;
    simpl in *.
  - injection Hl as ->. now rewrite filter_cons_False.
  - rewrite !filter_cons, (IH i Hl Hx). reflexivity.
Qed.

Lemma filter_recent_later now now' (l : list Z) :
  now <= now' ->
  filter (recent now') l = filter (recent now') (filter (recent now) l).
Proof.
  intros Hle. induction l as [| t l IH]; [reflexivity |].
  rewrite (filter_cons (recent now)), (filter_cons (recent now')).
  destruct (decide (recent now' t)) as [H' | H'];
    destruct (decide (recent now t)) as [H | H]; unfold recent in *.
  - rewrite filter_cons_True by assumption. now rewrite IH.
  - lia.
  - rewrite filter_cons_False by assumption. exact IH.
  - exact IH.
Qed.

(** One step keeps the successes of the last minute equal to the
    registration times of the timers of the last minute. *)
Lemma window_step w e w' (log : list Z) :
  Inv w ->
  filter (recent (clock w)) log
  = filter (recent (clock w)) (scheduledAt <$> timers w) ->
  step w e = Some w' ->
  filter (recent (clock w')) (log ++ (if succeeds w e then [clock w] else []))
  = filter (recent (clock w')) (scheduledAt <$> timers w').
Proof.
  intros [_ Ht _] H Hstep. destruct e as [files | | i v | i | dt]; simpl in Hstep.
  - destruct (handleFileChange files (ui w)); injection Hstep as <-;
      simpl; now rewrite app_nil_r.
  - destruct (handleSubmit (ui w)); injection Hstep as <-;
      simpl; now rewrite app_nil_r.
  - unfold succeeds. destruct (inflight w !! i) as [p |]; [| discriminate].
    simpl in *. destruct (resume p v) as [[p' call | text |] |];
      [| | | discriminate]; injection Hstep as <-; simpl.
    + now rewrite app_nil_r.
    + rewrite fmap_app, !filter_app, H. reflexivity.
    + now rewrite app_nil_r.
  - destruct (timers w !! i) as [tm |] eqn:Etm; [| discriminate].
    simpl in Hstep. destruct (due tm (clock w)) eqn:Edue; [| discriminate].
    injection Hstep as <-. simpl. rewrite app_nil_r, list_fmap_delete.
    rewrite (filter_delete_out _ _ i (scheduledAt tm)); [exact H | |].
    + now rewrite list_lookup_fmap, Etm.
    + rewrite Forall_lookup in Ht. destruct (Ht i tm Etm) as [Hd _].
      unfold due in Edue. unfold recent. rewrite <- Hd. lia.
  - destruct (0 <=? dt) eqn:Edt; [| discriminate]. injection Hstep as <-.
    simpl. rewrite app_nil_r.
    rewrite (filter_recent_later (clock w) (clock w + dt) log) by lia.
    rewrite (filter_recent_later (clock w) (clock w + dt) (scheduledAt <$> _)) by lia.
    now rewrite H.
Qed.

Section Window.

Variable stp : World -> Event -> option World.

(** [stp] lets an event through to the handlers or ignores it. *)
Hypothesis stp_cases : forall w e w',
  stp w e = Some w' -> (w' = w /\ succeeds w e = false) \/ step w e = Some w'.

Lemma successes_snoc evs e : forall w0 w w',
  run stp evs w0 = Some w -> stp w e = Some w' ->
  successes stp (evs ++ [e]) w0
  = successes stp evs w0 ++ (if succeeds w e then [clock w] else []).
Proof.
  induction evs as [| e0 evs IH]; intros w0 w w' Hrun He; simpl in *.
  - injection Hrun as <-. rewrite He. now rewrite app_nil_r.
  - destruct (stp w0 e0) as [w1 |]; [| discriminate]. simpl in Hrun.
    rewrite (IH w1 w w' Hrun He). now rewrite app_assoc.
Qed.

Lemma window_invariant evs : forall w,
  run stp evs initialWorld = Some w ->
  reachable w
  /\ filter (recent (clock w)) (successes stp evs initialWorld)
     = filter (recent (clock w)) (scheduledAt <$> timers w).
Proof.
  induction evs as [| e evs IH] using rev_ind; intros w' Hrun.
  - injection Hrun as <-. split; [now exists [] | reflexivity].
  - rewrite run_snoc in Hrun.
    destruct (run stp evs initialWorld) as [w |] eqn:Hw; [| discriminate].
    simpl in Hrun. destruct (IH w eq_refl) as [Hr Hwin].
    rewrite (successes_snoc evs e initialWorld w w' Hw Hrun).
    destruct (stp_cases w e w' Hrun) as [[-> ->] | Hstep].
    + rewrite app_nil_r. auto.
    + split.
      * destruct Hr as [evs0 Hr]. exists (evs0 ++ [e]).
        now apply (run_step_snoc step evs0 e w).
      * apply window_step; [now apply reachable_Inv | assumption ..].
Qed.

End Window.

Lemma step_cases w e w' :
  step w e = Some w' -> (w' = w /\ succeeds w e = false) \/ step w e = Some w'.
Proof. auto. Qed.

Lemma ui_step_lets_through w e w' :
  ui_step w e = Some w' -> (w' = w /\ succeeds w e = false) \/ step w e = Some w'.
Proof.
  destruct e; simpl; auto.
  destruct (submitDisabled (ui w)); [intros [= <-] |]; auto.
Qed.

(** X10.  The counter never forgets a success of the last minute: along
    any run of the handlers, the submissions that completed successfully
    less than [REQUEST_INTERVAL] = 60000 ms ago are at most
    [requestCount] many. *)
Theorem recent_successes_are_counted (evs : list Event) (w : World) :
  run step evs initialWorld = Some w ->
  Z.of_nat (length (filter (recent (clock w)) (successes step evs initialWorld)))
  <= requestCount (ui w).
Proof.
  intros Hrun.
  destruct (window_invariant step step_cases evs w Hrun) as [Hr Hwin].
  rewrite Hwin, (inv_count w (reachable_Inv w Hr)).
  pose proof (length_filter (recent (clock w)) (scheduledAt <$> timers w)) as H.
  rewrite length_fmap in H. lia.
Qed.

Lemma recent_successes_are_counted_witness :
  Z.of_nat (length (filter (recent 40000)
     (successes step (session 1 ++ Tick 30000 :: transcribe [4] "b" ++ [Tick 10000])
                initialWorld)))
  <= 2.
Proof.
  apply (recent_successes_are_counted
           (session 1 ++ Tick 30000 :: transcribe [4] "b" ++ [Tick 10000])
           (world_after (session 1 ++ Tick 30000 :: transcribe [4] "b" ++ [Tick 10000]))).
  vm_compute. reflexivity.
Defined.

(** X11.  Through the page, at most [MAX_REQUESTS_PER_MINUTE] = 10
    submissions complete successfully in any 60 seconds: in every state
    the page reaches, at most 10 of the successes so far are less than
    60000 ms old. *)
Theorem at_most_ten_successes_per_minute (evs : list Event) (w : World) :
  run ui_step evs initialWorld = Some w ->
  Z.of_nat (length (filter (fun t => clock w < t + 60000)
                           (successes ui_step evs initialWorld))) <= 10.
Proof.
  intros Hrun.
  destruct (window_invariant ui_step ui_step_lets_through evs w Hrun) as [Hr Hwin].
  change (fun t => clock w < t + 60000) with (recent (clock w)).
  rewrite Hwin.
  pose proof (length_filter (recent (clock w)) (scheduledAt <$> timers w)) as H.
  rewrite length_fmap in H.
  pose proof (inv_count w (reachable_Inv w Hr)) as Hc.
  assert (Hu : ui_reachable w) by now exists evs.
  destruct (ui_reachable_UiInv w Hu) as [[_ Hcase] _].
  unfold MAX_REQUESTS_PER_MINUTE in Hcase.
  destruct Hcase as [[_ Hle] | (p & _ & Hlt)]; lia.
Qed.

Lemma at_most_ten_successes_per_minute_witness :
  Z.of_nat (length (filter (fun t => 59999 < t + 60000)
      (successes ui_step (session 10 ++ [Tick 59999; Submit]) initialWorld)))
  <= 10.
Proof.
  apply (at_most_ten_successes_per_minute (session 10 ++ [Tick 59999; Submit])
           (world_after (session 10 ++ [Tick 59999; Submit]))).
  vm_compute. reflexivity.
Defined.

Example window_is_tight :
  length (filter (recent 59999)
            (successes ui_step (session 10 ++ [Tick 59999]) initialWorld)) = 10%nat
  /\ length (filter (recent 60000)
            (successes ui_step (session 10 ++ [Tick 60000]) initialWorld)) = 0%nat.
Proof. split; vm_compute; reflexivity. Qed.

(** * Recovery of the limiter *)

Lemma fire_all n : forall w,
  length (timers w) = n ->
  requestCount (ui w) = Z.of_nat n ->
  Forall (fun tm => due tm (clock w) = true) (timers w) ->
  exists w',
    run step (replicate n (Fire 0)) w = Some w'
    /\ requestCount (ui w') = 0 /\ timers w' = []
    /\ clock w' = clock w /\ inflight w' = inflight w
    /\ requests w' = requests w
    /\ file (ui w') = file (ui w) /\ transcript (ui w') = transcript (ui w)
    /\ isLoading (ui w') = isLoading (ui w) /\ error (ui w') = error (ui w)
    /\ progress (ui w') = progress (ui w).
Proof.
  induction n as [| n IH]; intros w Hlen Hc Hdue.
  - exists w. simpl. destruct (timers w); [| discriminate]. repeat split; auto.
  - destruct (timers w) as [| tm rest] eqn:Et; [discriminate |].
    apply Forall_cons_1 in Hdue as [Htm Hrest].
    cbn [replicate run]. rewrite (step_fire w 0 tm) by now rewrite Et.
    rewrite Htm. cbn [mbind option_bind].
    edestruct (IH {| ui := decrement (ui w); clock := clock w;
                     inflight := inflight w; timers := delete 0%nat (timers w);
                     requests := requests w |}) as (w' & Hrun & H).
    + simpl. rewrite Et. simpl in *. lia.
    + simpl. lia.
    + simpl. rewrite Et. exact Hrest.
    + exists w'. split; [exact Hrun |]. simpl in H. exact H.
Qed.

(** X12.  The limiter empties itself: from any reachable state, once
    [REQUEST_INTERVAL] = 60000 ms have passed every registered decrement
    can run, and when they all have, the counter is 0 and no timer is
    left, whatever the counter was; nothing else has changed, and a
    submission of the selected file passes the gate again. *)
Theorem limiter_recovers (w : World) :
  reachable w ->
  exists w',
    run step (Tick 60000 :: replicate (length (timers w)) (Fire 0)) w = Some w'
    /\ requestCount (ui w') = 0 /\ timers w' = []
    /\ clock w' = clock w + 60000
    /\ inflight w' = inflight w /\ requests w' = requests w
    /\ file (ui w') = file (ui w) /\ transcript (ui w') = transcript (ui w)
    /\ forall f, file (ui w) = Some f ->
         exists s, handleSubmit (ui w') = Suspended s
                     {| p_file := f; p_stage := AwaitArrayBuffer |}.
Proof.
  intros Hr. destruct (reachable_Inv w Hr) as [Hc Ht _].
  cbn [run step]. change (0 <=? 60000) with true. cbn [mbind option_bind].
  edestruct (fire_all (length (timers w))
               {| ui := ui w; clock := clock w + 60000; inflight := inflight w;
                  timers := timers w; requests := requests w |})
    as (w' & Hrun & H0 & Hnil & Hcl & Hin & Hrq & Hf & Htr & _).
  - reflexivity.
  - exact Hc.
  - simpl. eapply Forall_impl; [exact Ht |].
    intros tm [Hd Hs]. unfold due. rewrite Hd.
    change REQUEST_INTERVAL with 60000. lia.
  - exists w'. simpl in *. repeat (split; [assumption |]).
    intros f Hfile. eexists. apply handleSubmit_below_limit.
    + congruence.
    + rewrite H0. reflexivity.
Qed.

Lemma limiter_recovers_witness :
  exists w',
    run step (Tick 60000 :: replicate 10 (Fire 0)) (world_after (session 10))
    = Some w'
    /\ requestCount (ui w') = 0 /\ timers w' = [].
Proof.
  destruct (limiter_recovers (world_after (session 10)))
    as (w' & Hrun & H0 & Hnil & _).
  - apply reachable_world_after. vm_compute. eauto.
  - exists w'. split; [exact Hrun | split; assumption].
Defined.

(** * Submissions from start to end *)

Lemma arrayBufferToBase64_octets bytes :
  is_octets bytes ->
  arrayBufferToBase64 bytes = Some (string_of_list_ascii (Base64.encode bytes))
  /\ base64_decode (string_of_list_ascii (Base64.encode bytes)) = Some bytes.
Proof.
  intros H. unfold arrayBufferToBase64, btoa, base64_decode.
  rewrite binary_of_octets, octets_pass_btoa by assumption.
  rewrite list_ascii_of_string_of_list_ascii. split; [reflexivity |].
  now apply decode_encode.
Qed.

Lemma step_submit_admitted w f :
  file (ui w) = Some f -> requestCount (ui w) < MAX_REQUESTS_PER_MINUTE ->
  step w Submit
  = Some {| ui := setProgress 0 (setError "" (setIsLoading true (ui w)));
            clock := clock w;
            inflight := inflight w ++ [ {| p_file := f; p_stage := AwaitArrayBuffer |} ];
            timers := timers w; requests := requests w |}.
Proof.
  intros Hf Hlt. cbn [step]. now rewrite (handleSubmit_below_limit _ f Hf Hlt).
Qed.

Lemma step_buffer w i p bytes :
  inflight w !! i = Some p -> p_stage p = AwaitArrayBuffer -> is_octets bytes ->
  step w (Settle i (Buffer bytes))
  = Some {| ui := ui w; clock := clock w;
            inflight := <[i := {| p_file := p_file p;
                                  p_stage := AwaitGenerateContent |}]> (inflight w);
            timers := timers w;
            requests :=
              requests w
              ++ [ {| mimeType := File.type (p_file p);
                      data := string_of_list_ascii (Base64.encode bytes) |} ] |}.
Proof.
  intros Hp Hs Hb. cbn [step]. rewrite Hp. cbn [mbind option_bind].
  unfold resume. rewrite Hs.
  rewrite (proj1 (arrayBufferToBase64_octets bytes Hb)). reflexivity.
Qed.

Lemma step_result w i p :
  inflight w !! i = Some p -> p_stage p = AwaitGenerateContent ->
  step w (Settle i Result)
  = Some {| ui := ui w; clock := clock w;
            inflight := <[i := {| p_file := p_file p;
                                  p_stage := AwaitResponse |}]> (inflight w);
            timers := timers w; requests := requests w ++ [] |}.
Proof.
  intros Hp Hs. cbn [step]. rewrite Hp. cbn [mbind option_bind].
  unfold resume. rewrite Hs. reflexivity.
Qed.

Lemma step_change_accepted w g rest :
  acceptable g ->
  step w (Change (Some (g :: rest)))
  = Some (withUi (setError "" (setFile (Some g) (ui w))) w).
Proof.
  intros [Hsz Hty]%acceptable_dec. cbn [step]. unfold handleFileChange.
  cbn [lookup list_lookup]. now rewrite Hsz, Hty.
Qed.

(** X13.  One accepted submission, followed to its successful end
    through the page (file read, call issued, response with text):
    exactly one external call is issued, after the file was read; it
    carries the type of the selected file and a text that decodes to
    the bytes read; afterwards the transcript is the returned text, the
    counter is one higher with one decrement registered for 60000 ms
    later, nothing is pending, the error is empty, and the page is idle
    with progress 100 and the same file selected. *)
Theorem transcription_end_to_end (w : World) (f : File.t) (bytes : list Z)
    (text : string) :
  file (ui w) = Some f ->
  isLoading (ui w) = false ->
  inflight w = [] ->
  requestCount (ui w) < MAX_REQUESTS_PER_MINUTE ->
  is_octets bytes ->
  exists w' base64Audio,
    run ui_step (transcribe bytes text) w = Some w'
    /\ base64_decode base64Audio = Some bytes
    /\ requests w'
       = requests w ++ [ {| mimeType := File.type f; data := base64Audio |} ]
    /\ transcript (ui w') = text
    /\ requestCount (ui w') = requestCount (ui w) + 1
    /\ timers w' = timers w ++ [ {| scheduledAt := clock w; delay := 60000 |} ]
    /\ inflight w' = []
    /\ error (ui w') = ""%string
    /\ isLoading (ui w') = false /\ progress (ui w') = 100
    /\ file (ui w') = Some f.
Proof.
  intros Hf Hl Hin Hlt Hb.
  destruct (arrayBufferToBase64_octets bytes Hb) as [_ Hdec].
  unfold transcribe. cbn [run ui_step]. unfold submitDisabled.
  rewrite Hf, Hl, (step_submit_admitted w f Hf Hlt), Hin.
  cbn [mbind option_bind app].
  erewrite step_buffer; [| reflexivity | reflexivity | exact Hb].
  cbn [mbind option_bind].
  erewrite step_result; [| reflexivity | reflexivity].
  cbn [mbind option_bind].
  erewrite step_success; [| reflexivity | reflexivity].
  do 2 eexists. split; [reflexivity |]. split; [exact Hdec |].
  simpl. rewrite app_nil_r, Hf. repeat split.
Qed.

Lemma transcription_end_to_end_witness :
  exists w' base64Audio,
    run ui_step (transcribe all_octets "every byte")
        (world_after [Change (Some [sample])]) = Some w'
    /\ base64_decode base64Audio = Some all_octets
    /\ requests w' = [ {| mimeType := "audio/ogg"; data := base64Audio |} ]
    /\ transcript (ui w') = "every byte"%string
    /\ requestCount (ui w') = 1.
Proof.
  destruct (transcription_end_to_end (world_after [Change (Some [sample])])
              sample all_octets "every byte")
    as (w' & b & Hrun & Hdec & Hreq & Htr & Hc & _);
    [reflexivity | reflexivity | reflexivity | vm_compute; reflexivity
    | exact all_octets_are_octets |].
  exists w', b. repeat split; assumption.
Defined.

(** X14.  A submission sends the file that was selected when it was
    started: if another acceptable file is selected while the first is
    still being read, the external call still carries the type of the
    first file, although the page now names the second. *)
Theorem submitted_file_is_captured (w : World) (f g : File.t) (bytes : list Z) :
  file (ui w) = Some f ->
  inflight w = [] ->
  requestCount (ui w) < MAX_REQUESTS_PER_MINUTE ->
  acceptable g ->
  is_octets bytes ->
  exists w' base64Audio,
    run step [Submit; Change (Some [g]); Settle 0 (Buffer bytes)] w = Some w'
    /\ file (ui w') = Some g
    /\ selectedFileLine (render (ui w')) = Some ("Selected file: " ++ File.name g)%string
    /\ arrayBufferToBase64 bytes = Some base64Audio
    /\ requests w'
       = requests w ++ [ {| mimeType := File.type f; data := base64Audio |} ].
Proof.
  intros Hf Hin Hlt Hg Hb.
  cbn [run]. rewrite (step_submit_admitted w f Hf Hlt), Hin.
  cbn [mbind option_bind app].
  rewrite (step_change_accepted _ g [] Hg). cbn [mbind option_bind].
  erewrite step_buffer; [| reflexivity | reflexivity | exact Hb].
  do 2 eexists. split; [reflexivity |]. simpl.
  rewrite (proj1 (arrayBufferToBase64_octets bytes Hb)). auto.
Qed.

Lemma submitted_file_is_captured_witness :
  exists w' base64Audio,
    run step [Submit; Change (Some [ {| File.name := "talk.mp3";
                                        File.type := "audio/mpeg";
                                        File.size := 9 |} ]);
              Settle 0 (Buffer [1; 2; 3])]
        (world_after [Change (Some [sample])]) = Some w'
    /\ selectedFileLine (render (ui w')) = Some "Selected file: talk.mp3"%string
    /\ requests w' = [ {| mimeType := "audio/ogg"; data := base64Audio |} ].
Proof.
  destruct (submitted_file_is_captured (world_after [Change (Some [sample])])
              sample {| File.name := "talk.mp3"; File.type := "audio/mpeg";
                        File.size := 9 |} [1; 2; 3])
    as (w' & b & Hrun & _ & Hline & _ & Hreq);
    [reflexivity | reflexivity | vm_compute; reflexivity | |
     repeat constructor; lia |].
  - apply acceptable_dec. split; reflexivity.
  - exists w', b. repeat split; assumption.
Defined.

(** X15.  A rejected selection does not unselect: after a file is turned
    away by the validator, a submission below the limit starts a call
    for the file selected before, and clears the validator's message. *)
Theorem rejected_file_keeps_previous (w : World) (f g : File.t) :
  file (ui w) = Some f ->
  ~ acceptable g ->
  requestCount (ui w) < MAX_REQUESTS_PER_MINUTE ->
  exists w1 w',
    step w (Change (Some [g])) = Some w1
    /\ errorLine (render (ui w1))
       = Some (if File.size g >? MAX_FILE_SIZE
               then SIZE_LIMIT_ERROR else FORMAT_ERROR)
    /\ step w1 Submit = Some w'
    /\ inflight w'
       = inflight w ++ [ {| p_file := f; p_stage := AwaitArrayBuffer |} ]
    /\ errorLine (render (ui w')) = None
    /\ file (ui w') = Some f.
Proof.
  intros Hf Hno Hlt.
  assert (Hcase : (File.size g >? MAX_FILE_SIZE) = true
                  \/ ((File.size g >? MAX_FILE_SIZE) = false
                      /\ isAudioFormatSupported g = false)).
  { destruct (File.size g >? MAX_FILE_SIZE) eqn:Esz; [auto | right].
    split; [reflexivity |].
    destruct (isAudioFormatSupported g) eqn:Ety; [| reflexivity].
    exfalso. apply Hno, acceptable_dec. auto. }
  cbn [step]. unfold handleFileChange. cbn [lookup list_lookup].
  destruct Hcase as [-> | [-> ->]]; cbn [negb];
    (do 2 eexists; split; [reflexivity |]; split; [reflexivity |];
     cbn [step withUi ui];
     rewrite (handleSubmit_below_limit _ f) by (simpl; assumption);
     split; [reflexivity |]; simpl; rewrite Hf; auto).
Qed.

Lemma rejected_file_keeps_previous_witness :
  exists w1 w',
    step (world_after [Change (Some [sample])]) (Change (Some [video])) = Some w1
    /\ errorLine (render (ui w1)) = Some FORMAT_ERROR
    /\ step w1 Submit = Some w'
    /\ inflight w' = [ {| p_file := sample; p_stage := AwaitArrayBuffer |} ]
    /\ errorLine (render (ui w')) = None
    /\ file (ui w') = Some sample.
Proof.
  apply (rejected_file_keeps_previous (world_after [Change (Some [sample])])
           sample video); [reflexivity | | vm_compute; reflexivity].
  intros [_ Hty]. apply isAudioFormatSupported_spec in Hty. discriminate Hty.
Defined.

(** X16.  The page never stays stuck after a call has settled: in every
    reachable state, when a pending submission ends, with a transcript
    or in [catch], the step leaves the submit button enabled and
    labelled "Transcribe Audio", with no progress line. *)
Theorem settled_call_frees_the_button (w : World) (i : nat) (p : Pending)
    (v : Settled) :
  reachable w ->
  inflight w !! i = Some p ->
  resume p v = Some Failed \/ (exists text, resume p v = Some (Succeeded text)) ->
  exists w',
    step w (Settle i v) = Some w'
    /\ inflight w' = delete i (inflight w)
    /\ buttonDisabled (render (ui w')) = false
    /\ buttonLabel (render (ui w')) = "Transcribe Audio"%string
    /\ progressLine (render (ui w')) = None.
Proof.
  intros Hr Hp Hend.
  destruct (reachable_Inv w Hr) as [_ _ Hfile].
  destruct (file (ui w)) as [f |] eqn:Ef.
  2: { destruct Hfile as [Hnil _]; [reflexivity |]. now rewrite Hnil in Hp. }
  destruct Hend as [Hfail | [text Hok]].
  - rewrite (step_failure w i p v Hp Hfail). eexists. split; [reflexivity |].
    unfold render, submitDisabled. simpl. rewrite Ef. auto.
  - apply resume_Succeeded_iff in Hok as [Hs ->].
    rewrite (step_success w i p text Hp Hs). eexists. split; [reflexivity |].
    unfold render, submitDisabled. simpl. rewrite Ef. auto.
Qed.

Lemma settled_call_frees_the_button_witness :
  exists w',
    step (world_after awaiting_response) (Settle 0 (Response None)) = Some w'
    /\ inflight w' = delete 0%nat (inflight (world_after awaiting_response))
    /\ buttonDisabled (render (ui w')) = false
    /\ buttonLabel (render (ui w')) = "Transcribe Audio"%string
    /\ progressLine (render (ui w')) = None.
Proof.
  apply (settled_call_frees_the_button (world_after awaiting_response) 0
           {| p_file := sample; p_stage := AwaitResponse |} (Response None)).
  - apply reachable_world_after. vm_compute. eauto.
  - reflexivity.
  - left. reflexivity.
Defined.
